(** * ZeroKnowledgeLicense: a shallow embedding of [src/js/ZeroKnowledgeLicense.ts]

    The TypeScript class [ZeroKnowledgeLicense] is modelled as a state record
    threaded through a small state-and-exception monad.  A JavaScript
    [bigint] is a [Z].  A [number] is a [Z] too (the program's numbers are
    ranks, counts, quotas and timestamps; [NaN] appears only as an absent
    requirement or the time of an Invalid Date): the model computes on
    numbers exactly, which is what the source does on safe integers
    ([JS.isSafeInteger]); outside them JavaScript rounds to the nearest
    double and prints in exponent notation, so the theorems that rest on the
    arithmetic of caller-supplied numbers carry that bound as a hypothesis.
    A string is a sequence of code units below 256 (every string the program
    builds is ASCII: hex, decimal, feature names).  [crypto.randomBytes]
    reads an arbitrary byte stream held in the state, so a statement
    quantified over the state is quantified over every outcome of the random
    draws.  SHA-256 and HMAC-SHA-256 are implemented, so that the model can
    be run on concrete inputs. *)

From Stdlib Require Import ZArith List String Ascii Lia Bool.
From stdpp Require Import gmap strings list fin_maps.
Import ListNotations.

Local Open Scope string_scope.
Local Open Scope list_scope.
Local Open Scope Z_scope.

(** ** JavaScript primitives used by the program *)

Module JS.

(** One digit of [toString(radix)], lower case as JavaScript prints it. *)
Definition digitChar (d : Z) : ascii :=
  match String.get (Z.to_nat d) "0123456789abcdef" with
  | Some a => a
  | None => "0"%char
  end.

(** Digits of a non-negative integer, most significant first. *)
Fixpoint digits (radix : Z) (fuel : nat) (n : Z) : string :=
  match fuel with
  | O => ""
  | S f =>
      if n <? radix then String (digitChar n) ""
      else digits radix f (n / radix) +:+ String (digitChar (n mod radix)) ""
  end.

Definition digitFuel (n : Z) : nat := S (Z.to_nat (Z.log2 n)).

(** [n.toString(radix)] for a bigint, and for a number that is a safe
    integer (from 1e21 on a number is printed in exponent notation). *)
Definition toStringRadix (radix n : Z) : string :=
  if n <? 0 then "-" +:+ digits radix (digitFuel (- n)) (- n)
  else digits radix (digitFuel n) n.

Definition toString16 (n : Z) : string := toStringRadix 16 n.
Definition toString10 (n : Z) : string := toStringRadix 10 n.

Fixpoint zeros (n : nat) : string :=
  match n with
  | O => ""
  | S m => String "0"%char (zeros m)
  end.

(** [s.padStart(target, '0')] *)
Definition padStart0 (target : nat) (s : string) : string :=
  zeros (target - String.length s) +:+ s.

Definition code (a : ascii) : Z := Z.of_N (N_of_ascii a).

Definition hexValue (a : ascii) : option Z :=
  let n := code a in
  if (48 <=? n) && (n <=? 57) then Some (n - 48)
  else if (97 <=? n) && (n <=? 102) then Some (n - 87)
  else if (65 <=? n) && (n <=? 70) then Some (n - 55)
  else None.

Fixpoint parseHexAcc (acc : Z) (s : string) : option Z :=
  match s with
  | "" => Some acc
  | String a r =>
      match hexValue a with
      | Some d => parseHexAcc (acc * 16 + d) r
      | None => None
      end
  end.

(** White space and line terminators that [StringToBigInt] strips, among
    the code units below 256: TAB, LF, VT, FF, CR, SP and NBSP. *)
Definition isWhiteSpace (a : ascii) : bool :=
  let n := code a in ((9 <=? n) && (n <=? 13)) || (n =? 32) || (n =? 160).

Fixpoint trimEnd (s : string) : string :=
  match s with
  | "" => ""
  | String a r =>
      match trimEnd r with
      | "" => if isWhiteSpace a then "" else String a ""
      | r' => String a r'
      end
  end.

(** [BigInt('0x' + s)]: [None] stands for the [SyntaxError] it throws.
    White space cannot precede the digits, because the prefix ['0x'] is
    already in front of [s]; it may follow them. *)
Definition BigInt0x (s : string) : option Z :=
  match trimEnd s with
  | "" => None
  | t => parseHexAcc 0 t
  end.

Definition isDigit (a : ascii) : bool :=
  let n := code a in (48 <=? n) && (n <=? 57).

Fixpoint parseDecAcc (acc : Z) (s : string) : option Z :=
  match s with
  | "" => Some acc
  | String a r =>
      if isDigit a then parseDecAcc (acc * 10 + (code a - 48)) r else None
  end.

(** [Number(s)] on the strings an index list is joined from: the empty
    string is [0], a run of decimal digits is its value; [None] is [NaN].
    (JavaScript accepts further numeric literals, which [indices.join(',')]
    never produces.) *)
Definition NumberOf (s : string) : option Z := parseDecAcc 0 s.

(** [s.split(',')] *)
Fixpoint splitComma (s : string) : list string :=
  match s with
  | "" => [""]
  | String a r =>
      if Ascii.eqb a ","%char then "" :: splitComma r
      else
        match splitComma r with
        | x :: xs => String a x :: xs
        | [] => [String a ""]
        end
  end.

(** [xs.join(sep)] *)
Fixpoint join (sep : string) (xs : list string) : string :=
  match xs with
  | [] => ""
  | [x] => x
  | x :: r => x +:+ sep +:+ join sep r
  end.

Definition upperChar (a : ascii) : ascii :=
  let n := code a in
  if (97 <=? n) && (n <=? 122) then ascii_of_N (Z.to_N (n - 32)) else a.

Fixpoint toUpperCase (s : string) : string :=
  match s with
  | "" => ""
  | String a r => String (upperChar a) (toUpperCase r)
  end.

(** [s.match(/.{8}/g)]: the successive full groups of eight characters. *)
Fixpoint groupsOf8 (fuel : nat) (s : string) : list string :=
  match fuel with
  | O => []
  | S f =>
      if (8 <=? String.length s)%nat
      then substring 0 8 s :: groupsOf8 f (substring 8 (String.length s - 8) s)
      else []
  end.

(** [x || dflt] on strings: the empty string is falsy. *)
Definition orElse (x : option string) (dflt : string) : string :=
  match x with
  | Some (String a r) => String a r
  | _ => dflt
  end.

Definition bytesOfString (s : string) : list Z :=
  map code (list_ascii_of_string s).

(** [Number.isSafeInteger(n)] on an integral number: [|n| <= 2^53 - 1].
    Sums and differences of numbers are exact when they are safe integers. *)
Definition isSafeInteger (n : Z) : bool :=
  (- 9007199254740991 <=? n) && (n <=? 9007199254740991).

Definition hexOfByte (b : Z) : string :=
  String (digitChar (b / 16)) (String (digitChar (b mod 16)) "").

(** [buffer.toString('hex')] *)
Definition hexOfBytes (bs : list Z) : string :=
  fold_right (fun b acc => hexOfByte b +:+ acc) "" bs.

End JS.

(** ** SHA-256 (FIPS 180-4) and HMAC (RFC 2104), as [crypto.createHash] and
    [crypto.createHmac] compute them *)

Module SHA256.

Definition w32 (x : Z) : Z := x mod 4294967296.

Definition rotr (n x : Z) : Z :=
  Z.lor (Z.shiftr x n) (w32 (Z.shiftl x (32 - n))).

Definition Ch (x y z : Z) : Z :=
  Z.lxor (Z.land x y) (Z.land (Z.lxor x 4294967295) z).

Definition Maj (x y z : Z) : Z :=
  Z.lxor (Z.lxor (Z.land x y) (Z.land x z)) (Z.land y z).

Definition Sigma0 (x : Z) := Z.lxor (Z.lxor (rotr 2 x) (rotr 13 x)) (rotr 22 x).
Definition Sigma1 (x : Z) := Z.lxor (Z.lxor (rotr 6 x) (rotr 11 x)) (rotr 25 x).
Definition sigma0 (x : Z) := Z.lxor (Z.lxor (rotr 7 x) (rotr 18 x)) (Z.shiftr x 3).
Definition sigma1 (x : Z) := Z.lxor (Z.lxor (rotr 17 x) (rotr 19 x)) (Z.shiftr x 10).

(** The constants are defined as the standard defines them: the first 32
    bits of the fractional parts of the cube roots (for [K]) and of the
    square roots (for [H0]) of the first primes. *)
Definition isPrime (n : Z) : bool :=
  (1 <? n) && forallb (fun d => negb (n mod Z.of_nat d =? 0)) (seq 2 (Z.to_nat n - 2)).

Definition primes : list Z :=
  filter (fun n => isPrime n = true) (map Z.of_nat (seq 2 310)).

(** The integer cube root, one bit at a time from bit [bits - 1] down. *)
Fixpoint cubeRoot (bits : nat) (n root : Z) : Z :=
  match bits with
  | O => root
  | S b =>
      let candidate := root + 2 ^ Z.of_nat b in
      cubeRoot b n (if candidate * candidate * candidate <=? n then candidate else root)
  end.

Definition K : list Z :=
  Eval vm_compute in
    map (fun p => w32 (cubeRoot 44 (p * 2 ^ 96) 0)) (firstn 64 primes).

Definition H0 : list Z :=
  Eval vm_compute in
    map (fun p => w32 (Z.sqrt (p * 2 ^ 64))) (firstn 8 primes).

(** Big-endian 32-bit words of a run of bytes. *)
Fixpoint words (bs : list Z) : list Z :=
  match bs with
  | b0 :: b1 :: b2 :: b3 :: r =>
      (((b0 * 256 + b1) * 256 + b2) * 256 + b3) :: words r
  | _ => []
  end.

(** The message schedule, kept newest word first while it grows. *)
Fixpoint extend (n : nat) (newest_first : list Z) : list Z :=
  match n with
  | O => newest_first
  | S m =>
      let w i := nth i newest_first 0 in
      extend m
        (w32 (sigma1 (w 1%nat) + w 6%nat + sigma0 (w 14%nat) + w 15%nat)
           :: newest_first)
  end.

Definition schedule (block : list Z) : list Z :=
  rev (extend 48 (rev (words block))).

Definition step (s : list Z) (kw : Z * Z) : list Z :=
  match s with
  | [a; b; c; d; e; f; g; h] =>
      let t1 := h + Sigma1 e + Ch e f g + kw.1 + kw.2 in
      let t2 := Sigma0 a + Maj a b c in
      [w32 (t1 + t2); a; b; c; w32 (d + t1); e; f; g]
  | _ => s
  end.

Definition compress (h block : list Z) : list Z :=
  map (fun p => w32 (p.1 + p.2))
      (combine h (fold_left step (combine K (schedule block)) h)).

Fixpoint bigEndian (n : nat) (x : Z) : list Z :=
  match n with
  | O => []
  | S m => bigEndian m (x / 256) ++ [x mod 256]
  end.

Definition pad (msg : list Z) : list Z :=
  let len := Z.of_nat (length msg) in
  msg ++ [128] ++ repeat 0 (Z.to_nat ((55 - len) mod 64)) ++ bigEndian 8 (len * 8).

Fixpoint absorb (fuel : nat) (h bs : list Z) : list Z :=
  match fuel with
  | O => h
  | S f =>
      match bs with
      | [] => h
      | _ => absorb f (compress h (firstn 64 bs)) (skipn 64 bs)
      end
  end.

Definition digest (msg : list Z) : list Z :=
  let p := pad msg in
  flat_map (bigEndian 4) (absorb (length p) H0 p).

Definition hmac (key msg : list Z) : list Z :=
  let k0 := if (64 <? Z.of_nat (length key)) then digest key else key in
  let k := k0 ++ repeat 0 (64 - length k0)%nat in
  digest (map (Z.lxor 0x5c) k ++ digest (map (Z.lxor 0x36) k ++ msg)).

Definition hex (s : string) : string :=
  JS.hexOfBytes (digest (JS.bytesOfString s)).

Definition hmacHex (key msg : string) : string :=
  JS.hexOfBytes (hmac (JS.bytesOfString key) (JS.bytesOfString msg)).

End SHA256.

(** Known answers: the FIPS 180-4 examples and RFC 4231 test case 2. *)
Example sha256_abc :
  SHA256.hex "abc"
  = "ba7816bf8f01cfea414140de5dae2223b00361a396177a9cb410ff61f20015ad".
Proof. vm_compute. reflexivity. Qed.

Example sha256_two_blocks :
  SHA256.hex "abcdbcdecdefdefgefghfghighijhijkijkljklmklmnlmnomnopnopq"
  = "248d6a61d20638b8e5c026930c3e6039a33ce45964ff2167f6ecedd419db06c1".
Proof. vm_compute. reflexivity. Qed.

Example hmac_sha256_rfc4231_2 :
  SHA256.hmacHex "Jefe" "what do ya want for nothing?"
  = "5bdcc146bf60754e6a042426089575c75a003f089d2739839dec58b964ec3843".
Proof. vm_compute. reflexivity. Qed.

Example js_toString16 :
  JS.toString16 255 = "ff" /\ JS.toString16 0 = "0" /\ JS.toString16 (-26) = "-1a"
  /\ JS.toString10 (-1) = "-1" /\ JS.toString10 1000 = "1000".
Proof. vm_compute. repeat split; reflexivity. Qed.

Example js_BigInt0x :
  JS.BigInt0x "ff" = Some 255 /\ JS.BigInt0x "FF " = Some 255
  /\ JS.BigInt0x "" = None /\ JS.BigInt0x "-1a" = None /\ JS.BigInt0x "0g" = None.
Proof. vm_compute. repeat split; reflexivity. Qed.

(** ** Type definitions *)

Inductive LicenseTier := trial | starter | professional | enterprise | unlimited.

Inductive ProofType :=
| license_ownership
| tier_membership
| feature_access
| usage_quota
| time_validity
| worker_allocation.

#[global] Instance LicenseTier_eq_dec : EqDecision LicenseTier.
Proof. solve_decision. Defined.

#[global] Instance ProofType_eq_dec : EqDecision ProofType.
Proof. solve_decision. Defined.

(** The dates the engine makes itself ([new Date()], [new Date(Date.now() +
    ms)]) are their [getTime()] value, in milliseconds.  A [Date] object
    handed in by the caller is its time value too, or the Invalid Date, whose
    [getTime()] is [NaN]. *)
Inductive Date :=
| TimeValue (ms : Z)
| InvalidDate.

Record LicenseCommitment := {
  commitmentId : string;
  commitment : string;
  tierCommitment : string;
  expirationCommitment : string;
  featureMerkleRoot : string;
  createdAt : Z;
  verificationKeyHash : string
}.

(** The [proof] member of a [ZKProof]: [a : [string, string]],
    [b : [[string, string], [string, string]]], [c : [string, string]]. *)
Record ProofData := {
  proof_a : string * string;
  proof_b : (string * string) * (string * string);
  proof_c : string * string
}.

Record ZKProof := {
  proofId : string;
  proof_timestamp : Z;
  proofType : ProofType;
  proof : ProofData;
  publicInputs : list string;
  proof_commitmentId : string;
  verified : bool;
  verifiedAt : option Z;
  nonce : string;
  challenge : string
}.

Record MerkleProof := {
  leaf : string;
  path : list string;
  indices : list Z
}.

Record WitnessData := {
  tier : LicenseTier;
  tierValue : Z;
  expirationTimestamp : Z;
  witness_maxWorkers : Z;
  witness_enabledFeatures : list string;
  usageQuota : Z;
  usedQuota : Z;
  featureMerkleProofs : gmap string MerkleProof
}.

Record BlindingFactors := {
  blinding_license : string;
  blinding_tier : string;
  blinding_expiration : string;
  blinding_features : list string
}.

Record LicenseSecret := {
  licenseKey : string;
  blindingFactors : BlindingFactors;
  masterSecret : string;
  proofSecret : string;
  witnessData : WitnessData
}.

(** Every requirement is optional in the source; the generators read them
    with a non-null assertion. *)
Record ProofRequirements := {
  minimumTier : option LicenseTier;
  requiredFeature : option string;
  requiredQuota : option Z;
  requestedWorkers : option Z;
  currentTimestamp : option Z
}.

Record ProofRequest := {
  requestId : string;
  request_timestamp : Z;
  request_proofType : ProofType;
  requirements : ProofRequirements;
  request_challenge : string;
  expiresAt : Z
}.

Record ProvenClaims := {
  hasValidLicense : bool;
  meetsTierRequirement : option bool;
  hasFeatureAccess : option bool;
  hasQuota : option bool;
  hasWorkerCapacity : option bool;
  isNotExpired : option bool
}.

Record VerificationResult := {
  valid : bool;
  result_proofId : string;
  result_verifiedAt : Z;
  provenClaims : ProvenClaims;
  verificationTime : Z
}.

Record ECPoint := { x : Z; y : Z }.

Record CircuitParams := {
  g1 : ECPoint;
  g2 : ECPoint;
  h : ECPoint;
  fieldModulus : Z;
  groupOrder : Z
}.

Record TierLimits := {
  maxWorkers : Z;
  monthlyQuota : Z;
  features : list string
}.

Record ZeroKnowledgeLicenseConfig := {
  curve : string;
  securityLevel : Z;
  proofExpirationMs : Z;
  maxProofsPerHour : Z;
  enabledFeatures : list string;
  tierHierarchy : LicenseTier -> Z;
  tierLimits : LicenseTier -> TierLimits;
  verificationCacheMs : Z;
  strictMode : bool
}.

(** ** Default configuration *)

Definition DEFAULT_CONFIG : ZeroKnowledgeLicenseConfig := {|
  curve := "bn128";
  securityLevel := 128;
  proofExpirationMs := 300000;
  maxProofsPerHour := 1000;
  enabledFeatures :=
    ["basic-crawling"; "stealth-mode"; "swarm-workers"; "ai-oracle";
     "visual-testing"; "api-access"; "priority-support"; "custom-training";
     "white-label"; "on-premise"];
  tierHierarchy := fun t =>
    match t with
    | trial => 1
    | starter => 2
    | professional => 3
    | enterprise => 4
    | unlimited => 5
    end;
  tierLimits := fun t =>
    match t with
    | trial =>
        {| maxWorkers := 1; monthlyQuota := 1000;
           features := ["basic-crawling"] |}
    | starter =>
        {| maxWorkers := 5; monthlyQuota := 100000;
           features := ["basic-crawling"; "stealth-mode"; "api-access"] |}
    | professional =>
        {| maxWorkers := 25; monthlyQuota := 1000000;
           features := ["basic-crawling"; "stealth-mode"; "swarm-workers";
                        "ai-oracle"; "api-access"] |}
    | enterprise =>
        {| maxWorkers := 100; monthlyQuota := 10000000;
           features := ["basic-crawling"; "stealth-mode"; "swarm-workers";
                        "ai-oracle"; "visual-testing"; "api-access";
                        "priority-support"] |}
    | unlimited =>
        {| maxWorkers := 1000; monthlyQuota := -1;
           features := ["basic-crawling"; "stealth-mode"; "swarm-workers";
                        "ai-oracle"; "visual-testing"; "api-access";
                        "priority-support"; "custom-training"; "white-label";
                        "on-premise"] |}
    end;
  verificationCacheMs := 60000;
  strictMode := true
|}.

(** [initializeCircuitParams]: the constructor assigns the field once and
    nothing else writes it, so [circuitParams] is this constant. *)
Definition circuitParams : CircuitParams := {|
  g1 := {| x := 1; y := 2 |};
  g2 := {| x := 3; y := 4 |};
  h := {| x := 5; y := 6 |};
  fieldModulus :=
    21888242871839275222246405745257275088696311157297823662689037894645226208583;
  groupOrder :=
    21888242871839275222246405745257275088548364400416034343698204186575808495617
|}.

(** ** The engine state and its monad *)

Record CacheEntry := {
  result : VerificationResult;
  cache_expiresAt : Z
}.

(** The mutable private fields of the class, and the process's random
    source: byte [randomSource i] is the [i]-th byte [crypto.randomBytes]
    hands out.  Events emitted to listeners are left out: the class never
    reads them back.  Every clock reading of one call is the instant [now]
    the call is made at. *)
Record State := {
  config : ZeroKnowledgeLicenseConfig;
  commitments : gmap string LicenseCommitment;
  proofCache : gmap string CacheEntry;
  proofCounts : gmap string Z;
  proofCountReset : Z;
  totalProofsGenerated : Z;
  totalProofsVerified : Z;
  totalValidProofs : Z;
  totalInvalidProofs : Z;
  randomSource : nat -> Z;
  randomCursor : nat
}.

(** The errors the engine throws; [message] is the text the source gives
    the [Error] object. *)
Inductive Error :=
| RateLimitExceeded
| InsufficientQuota
| ExceedsWorkerLimit
| LicenseExpired
| FeatureNotLicensed (feature : string)
| RangeErrorNaN
| SyntaxErrorBigInt.

Definition message (e : Error) : string :=
  match e with
  | RateLimitExceeded => "Rate limit exceeded"
  | InsufficientQuota => "Insufficient quota"
  | ExceedsWorkerLimit => "Exceeds worker limit"
  | LicenseExpired => "License expired"
  | FeatureNotLicensed f => "Feature " +:+ f +:+ " not in license"
  | RangeErrorNaN =>
      "The number NaN cannot be converted to a BigInt because it is not an integer"
  | SyntaxErrorBigInt => "Cannot convert to BigInt"
  end.

Inductive Outcome (A : Type) :=
| Returned (a : A)
| Thrown (e : Error).
Arguments Returned {A} a.
Arguments Thrown {A} e.

(** A computation may change the state before it throws, as in JavaScript. *)
Definition M (A : Type) : Type := State -> Outcome A * State.

Definition ret {A} (a : A) : M A := fun st => (Returned a, st).

Definition bind {A B} (m : M A) (k : A -> M B) : M B :=
  fun st =>
    match m st with
    | (Returned a, st') => k a st'
    | (Thrown e, st') => (Thrown e, st')
    end.

Definition throw {A} (e : Error) : M A := fun st => (Thrown e, st).
Definition gets {A} (f : State -> A) : M A := fun st => (Returned (f st), st).
Definition modify (f : State -> State) : M unit := fun st => (Returned tt, f st).

Notation "x <- m ;; k" := (bind m (fun x => k))
  (at level 100, m at next level, right associativity).
Notation "m ;;; k" := (bind m (fun _ => k))
  (at level 100, right associativity).

Definition set_commitments (f : gmap string LicenseCommitment -> gmap string LicenseCommitment)
    (st : State) : State :=
  {| config := config st;
     commitments := f (commitments st); proofCache := proofCache st;
     proofCounts := proofCounts st; proofCountReset := proofCountReset st;
     totalProofsGenerated := totalProofsGenerated st;
     totalProofsVerified := totalProofsVerified st;
     totalValidProofs := totalValidProofs st;
     totalInvalidProofs := totalInvalidProofs st;
     randomSource := randomSource st; randomCursor := randomCursor st |}.

Definition set_proofCache (f : gmap string CacheEntry -> gmap string CacheEntry)
    (st : State) : State :=
  {| config := config st;
     commitments := commitments st; proofCache := f (proofCache st);
     proofCounts := proofCounts st; proofCountReset := proofCountReset st;
     totalProofsGenerated := totalProofsGenerated st;
     totalProofsVerified := totalProofsVerified st;
     totalValidProofs := totalValidProofs st;
     totalInvalidProofs := totalInvalidProofs st;
     randomSource := randomSource st; randomCursor := randomCursor st |}.

Definition set_proofCounts (f : gmap string Z -> gmap string Z) (st : State) : State :=
  {| config := config st;
     commitments := commitments st; proofCache := proofCache st;
     proofCounts := f (proofCounts st); proofCountReset := proofCountReset st;
     totalProofsGenerated := totalProofsGenerated st;
     totalProofsVerified := totalProofsVerified st;
     totalValidProofs := totalValidProofs st;
     totalInvalidProofs := totalInvalidProofs st;
     randomSource := randomSource st; randomCursor := randomCursor st |}.

Definition set_proofCountReset (t : Z) (st : State) : State :=
  {| config := config st;
     commitments := commitments st; proofCache := proofCache st;
     proofCounts := proofCounts st; proofCountReset := t;
     totalProofsGenerated := totalProofsGenerated st;
     totalProofsVerified := totalProofsVerified st;
     totalValidProofs := totalValidProofs st;
     totalInvalidProofs := totalInvalidProofs st;
     randomSource := randomSource st; randomCursor := randomCursor st |}.

Definition count_generated (st : State) : State :=
  {| config := config st;
     commitments := commitments st; proofCache := proofCache st;
     proofCounts := proofCounts st; proofCountReset := proofCountReset st;
     totalProofsGenerated := totalProofsGenerated st + 1;
     totalProofsVerified := totalProofsVerified st;
     totalValidProofs := totalValidProofs st;
     totalInvalidProofs := totalInvalidProofs st;
     randomSource := randomSource st; randomCursor := randomCursor st |}.

Definition count_verified (isValid : bool) (st : State) : State :=
  {| config := config st;
     commitments := commitments st; proofCache := proofCache st;
     proofCounts := proofCounts st; proofCountReset := proofCountReset st;
     totalProofsGenerated := totalProofsGenerated st;
     totalProofsVerified := totalProofsVerified st + 1;
     totalValidProofs := totalValidProofs st + (if isValid then 1 else 0);
     totalInvalidProofs := totalInvalidProofs st + (if isValid then 0 else 1);
     randomSource := randomSource st; randomCursor := randomCursor st |}.

Definition advance_cursor (n : nat) (st : State) : State :=
  {| config := config st;
     commitments := commitments st; proofCache := proofCache st;
     proofCounts := proofCounts st; proofCountReset := proofCountReset st;
     totalProofsGenerated := totalProofsGenerated st;
     totalProofsVerified := totalProofsVerified st;
     totalValidProofs := totalValidProofs st;
     totalInvalidProofs := totalInvalidProofs st;
     randomSource := randomSource st;
     randomCursor := (randomCursor st + n)%nat |}.

(** The state of a freshly constructed engine: [new ZeroKnowledgeLicense(cfg)]
    at time [now], reading random bytes from [source]. *)
Definition construct (cfg : ZeroKnowledgeLicenseConfig) (now : Z) (source : nat -> Z) : State :=
  {| config := cfg;
     commitments := ∅; proofCache := ∅; proofCounts := ∅;
     proofCountReset := now;
     totalProofsGenerated := 0; totalProofsVerified := 0;
     totalValidProofs := 0; totalInvalidProofs := 0;
     randomSource := source; randomCursor := 0 |}.

(** [crypto.randomBytes(n)] *)
Definition randomBytes (n : nat) : M (list Z) :=
  fun st =>
    (Returned (map (fun i => randomSource st (randomCursor st + i)%nat mod 256) (seq 0 n)),
     advance_cursor n st).

(** [BigInt('0x' + s)] inside the engine *)
Definition BigInt0x (s : string) : M Z :=
  match JS.BigInt0x s with
  | Some n => ret n
  | None => throw SyntaxErrorBigInt
  end.

(** ** Cryptographic primitives *)

(** [pedersenCommit]; [%] on bigints truncates towards zero ([Z.rem]). *)
Definition pedersenCommit (value blinding : Z) : string :=
  let combined :=
    Z.rem (value * x (g1 circuitParams) + blinding * x (h circuitParams))
          (fieldModulus circuitParams) in
  JS.padStart0 64 (JS.toString16 combined).

(** [pedersenVerify]; [None] when [BigInt('0x' + commitment)] throws. *)
Definition pedersenVerify (s1 s2 c : Z) (commitment : string) : option string :=
  match JS.BigInt0x commitment with
  | Some C =>
      let result :=
        Z.rem (s1 * x (g1 circuitParams) + s2 * x (h circuitParams) - c * C)
              (fieldModulus circuitParams) in
      Some (JS.padStart0 64 (JS.toString16 result))
  | None => None
  end.

Definition randomScalar : M Z :=
  bytes <- randomBytes 32 ;;
  n <- BigInt0x (JS.hexOfBytes bytes) ;;
  ret (Z.rem n (groupOrder circuitParams)).

Definition hashToScalar (value : string) : M Z :=
  n <- BigInt0x (SHA256.hex value) ;;
  ret (Z.rem n (groupOrder circuitParams)).

Definition hashValue (value : string) : string := SHA256.hex value.

Definition hashValues (values : list string) : string :=
  SHA256.hex (JS.join "" values).

Definition deriveSecret (master purpose : string) : string :=
  SHA256.hmacHex master purpose.

Definition generateId (prefix : string) : M string :=
  bytes <- randomBytes 16 ;;
  ret (prefix +:+ "_" +:+ JS.hexOfBytes bytes).

(** ** The feature Merkle tree *)

(** One pass of the inner [for] loop: [right = currentLevel[i + 1] || left]. *)
Fixpoint nextLevel (currentLevel : list string) : list string :=
  match currentLevel with
  | [] => []
  | left_ :: rest =>
      match rest with
      | [] => [hashValues [left_; left_]]
      | right_ :: rest' =>
          hashValues [left_; JS.orElse (Some right_) left_] :: nextLevel rest'
      end
  end.

(** The [while (currentLevel.length > 1)] loop: the levels pushed after the
    leaves.  A level of more than one node is followed by a strictly shorter
    one, so [length leaves] passes are enough ([levels_complete] below). *)
Fixpoint upperLevels (fuel : nat) (currentLevel : list string) : list (list string) :=
  match fuel with
  | O => []
  | S f =>
      if (1 <? length currentLevel)%nat
      then let next := nextLevel currentLevel in next :: upperLevels f next
      else []
  end.

Definition buildLevels (leaves : list string) : list (list string) :=
  leaves :: upperLevels (length leaves) leaves.

(** The proof loop over [level < levels.length - 1]: the sibling is pushed
    only when [siblingIndex < levels[level].length]. *)
Fixpoint proofPath (levels : list (list string)) (index : nat) : list string * list Z :=
  match levels with
  | [] => ([], [])
  | level :: above =>
      match above with
      | [] => ([], [])
      | _ =>
          let siblingIndex :=
            if Nat.even index then (index + 1)%nat else (index - 1)%nat in
          let rest := proofPath above (index / 2)%nat in
          match level !! siblingIndex with
          | Some sibling =>
              (sibling :: rest.1, Z.of_nat (index mod 2) :: rest.2)
          | None => rest
          end
      end
  end.

Definition merkleProofAt (leaves : list string) (levels : list (list string)) (i : nat)
    : MerkleProof :=
  let pi := proofPath levels i in
  {| leaf := nth i leaves ""; path := pi.1; indices := pi.2 |}.

(** [createFeatureMerkleTree] *)
Definition createFeatureMerkleTree (features : list string)
    : string * gmap string MerkleProof :=
  let leaves := map hashValue features in
  let levels := buildLevels leaves in
  let root := JS.orElse (last levels ≫= head) (hashValue "empty") in
  let proofs :=
    fold_left
      (fun (proofs : gmap string MerkleProof) (entry : nat * string) =>
         <[entry.2 := merkleProofAt leaves levels entry.1]> proofs)
      (combine (seq 0 (length features)) features) ∅ in
  (root, proofs).

(** ** License creation *)

Definition generateLicenseKey : M string :=
  bytes <- randomBytes 32 ;;
  let hex := JS.toUpperCase (JS.hexOfBytes bytes) in
  ret ("QP-" +:+
       match JS.groupsOf8 (String.length hex) hex with
       | [] => "undefined"
       | groups => JS.join "-" groups
       end).

Fixpoint randomHexStrings (n : nat) : M (list string) :=
  match n with
  | O => ret []
  | S m =>
      bytes <- randomBytes 32 ;;
      rest <- randomHexStrings m ;;
      ret (JS.hexOfBytes bytes :: rest)
  end.

Definition generateBlindingFactors : M BlindingFactors :=
  bl <- randomBytes 32 ;;
  bt <- randomBytes 32 ;;
  be <- randomBytes 32 ;;
  bf <- randomHexStrings 10 ;;
  ret {| blinding_license := JS.hexOfBytes bl;
         blinding_tier := JS.hexOfBytes bt;
         blinding_expiration := JS.hexOfBytes be;
         blinding_features := bf |}.

(** [expirationDate.getTime()]; [None] is [NaN]. *)
Definition getTime (d : Date) : option Z :=
  match d with
  | TimeValue ms => Some ms
  | InvalidDate => None
  end.

(** [BigInt(n)] for a number that is integral or [NaN]. *)
Definition BigIntOf (n : option Z) : M Z :=
  match n with
  | Some z => ret z
  | None => throw RangeErrorNaN
  end.

(** [createLicense(tier, expirationDate)], called at time [now].
    [Math.floor(ms / 1000)] is the floored quotient for every time value
    (at most 8.64e15 in magnitude), and [NaN] for [NaN]; [BigInt] is applied
    to it before the blinding factor is hashed. *)
Definition createLicense (tier_ : LicenseTier) (expirationDate : Date) (now : Z)
    : M (LicenseCommitment * LicenseSecret) :=
  licenseKey_ <- generateLicenseKey ;;
  blindingFactors_ <- generateBlindingFactors ;;
  keyScalar <- hashToScalar licenseKey_ ;;
  licenseBlinding <- hashToScalar (blinding_license blindingFactors_) ;;
  let licenseCommitment := pedersenCommit keyScalar licenseBlinding in
  cfg <- gets config ;;
  let tierValue_ := tierHierarchy cfg tier_ in
  tierBlinding <- hashToScalar (blinding_tier blindingFactors_) ;;
  let tierCommitment_ := pedersenCommit tierValue_ tierBlinding in
  expirationTimestamp_ <-
    BigIntOf ((fun ms => ms / 1000) <$> getTime expirationDate) ;;
  expirationBlinding <- hashToScalar (blinding_expiration blindingFactors_) ;;
  let expirationCommitment_ := pedersenCommit expirationTimestamp_ expirationBlinding in
  let limits := tierLimits cfg tier_ in
  let featureMerkleData := createFeatureMerkleTree (features limits) in
  let witnessData_ :=
    {| tier := tier_;
       tierValue := tierValue_;
       expirationTimestamp := expirationTimestamp_;
       witness_maxWorkers := maxWorkers limits;
       witness_enabledFeatures := features limits;
       usageQuota := monthlyQuota limits;
       usedQuota := 0;
       featureMerkleProofs := featureMerkleData.2 |} in
  let masterSecret_ := deriveSecret licenseKey_ "master" in
  let proofSecret_ := deriveSecret masterSecret_ "proof" in
  commitmentId_ <- generateId "cmt" ;;
  let verificationKeyHash_ :=
    hashValues [licenseCommitment; tierCommitment_; expirationCommitment_;
                featureMerkleData.1] in
  let commitment_ :=
    {| commitmentId := commitmentId_;
       commitment := licenseCommitment;
       tierCommitment := tierCommitment_;
       expirationCommitment := expirationCommitment_;
       featureMerkleRoot := featureMerkleData.1;
       createdAt := now;
       verificationKeyHash := verificationKeyHash_ |} in
  let secret :=
    {| licenseKey := licenseKey_;
       blindingFactors := blindingFactors_;
       masterSecret := masterSecret_;
       proofSecret := proofSecret_;
       witnessData := witnessData_ |} in
  modify (set_commitments (insert commitmentId_ commitment_)) ;;;
  ret (commitment_, secret).

(** ** Rate limiting *)

(** [checkRateLimit(commitmentId)], called at time [now]. *)
Definition checkRateLimit (commitmentId_ : string) (now : Z) : M unit :=
  lastReset <- gets proofCountReset ;;
  (if 3600000 <? now - lastReset
   then modify (fun st => set_proofCountReset now (set_proofCounts (fun _ => ∅) st))
   else ret tt) ;;;
  counts <- gets proofCounts ;;
  cfg <- gets config ;;
  let count := default 0 (counts !! commitmentId_) in
  if maxProofsPerHour cfg <=? count
  then throw RateLimitExceeded
  else modify (set_proofCounts (insert commitmentId_ (count + 1))).

(** ** Proof generation (client side) *)

Definition GeneratedProof : Type := ProofData * list string.

(** [generateOwnershipProof] *)
Definition generateOwnershipProof (secret : LicenseSecret) (cmt : LicenseCommitment)
    (challenge_ nonce_ : string) : M GeneratedProof :=
  r <- randomScalar ;;
  k <- randomScalar ;;
  let t := pedersenCommit r k in
  c <- hashToScalar (commitment cmt +:+ t +:+ challenge_ +:+ nonce_) ;;
  keyScalar <- hashToScalar (licenseKey secret) ;;
  let s1 := Z.rem (r + c * keyScalar) (groupOrder circuitParams) in
  blindingScalar <- hashToScalar (blinding_license (blindingFactors secret)) ;;
  let s2 := Z.rem (k + c * blindingScalar) (groupOrder circuitParams) in
  ret ({| proof_a := (t, JS.toString16 s1);
          proof_b := ((JS.toString16 s2, JS.toString16 c), ("0", "0"));
          proof_c := (commitment cmt, nonce_) |},
       [commitment cmt; challenge_; verificationKeyHash cmt]).

(** [generateTierMembershipProof]; with no [minimumTier] the required value
    is [undefined] and [BigInt(NaN)] throws. *)
Definition generateTierMembershipProof (secret : LicenseSecret) (cmt : LicenseCommitment)
    (minimumTier_ : option LicenseTier) (challenge_ nonce_ : string) : M GeneratedProof :=
  cfg <- gets config ;;
  match minimumTier_ with
  | None => throw RangeErrorNaN
  | Some mt =>
      let requiredValue := tierHierarchy cfg mt in
      let actualValue := tierValue (witnessData secret) in
      let difference := actualValue - requiredValue in
      r <- randomScalar ;;
      let diffCommitment := pedersenCommit difference r in
      l1 <- randomScalar ;;
      l2 <- randomScalar ;;
      let L := pedersenCommit l1 l2 in
      r1 <- randomScalar ;;
      r2 <- randomScalar ;;
      let R := pedersenCommit r1 r2 in
      c <- hashToScalar (tierCommitment cmt +:+ diffCommitment +:+ challenge_ +:+ nonce_) ;;
      ret ({| proof_a := (diffCommitment, L);
              proof_b := ((R, JS.toString16 c), (JS.toString16 r, "0"));
              proof_c := (tierCommitment cmt, nonce_) |},
           [tierCommitment cmt; JS.toString10 requiredValue; challenge_])
  end.

(** [generateFeatureAccessProof]; an absent [requiredFeature] is looked up
    as [undefined], which no key of the map equals. *)
Definition generateFeatureAccessProof (secret : LicenseSecret) (cmt : LicenseCommitment)
    (requiredFeature_ : option string) (challenge_ nonce_ : string) : M GeneratedProof :=
  match requiredFeature_ ≫= fun f => (featureMerkleProofs (witnessData secret) !! f) with
  | None => throw (FeatureNotLicensed (default "undefined" requiredFeature_))
  | Some merkleProof =>
      let featureHash := hashValue (default "undefined" requiredFeature_) in
      r <- randomScalar ;;
      let pathCommitment := hashValues (path merkleProof) in
      c <- hashToScalar (featureMerkleRoot cmt +:+ featureHash +:+ pathCommitment
                         +:+ challenge_ +:+ nonce_) ;;
      ret ({| proof_a := (leaf merkleProof, pathCommitment);
              proof_b :=
                ((JS.orElse (path merkleProof !! 0%nat) "0",
                  JS.orElse (path merkleProof !! 1%nat) "0"),
                 (JS.join "," (map JS.toString10 (indices merkleProof)),
                  JS.toString16 c));
              proof_c := (featureMerkleRoot cmt, nonce_) |},
           [featureMerkleRoot cmt; featureHash; challenge_])
  end.

(** [generateQuotaProof]; with no [requiredQuota] the comparison with
    [undefined] is false and [BigInt(NaN)] throws.  [remaining] and
    [difference] are the exact differences, which the source's are on safe
    integers ([exactRemaining], [safeNumbers] below). *)
Definition generateQuotaProof (secret : LicenseSecret) (cmt : LicenseCommitment)
    (requiredQuota_ : option Z) (challenge_ nonce_ : string) : M GeneratedProof :=
  let remaining := usageQuota (witnessData secret) - usedQuota (witnessData secret) in
  match requiredQuota_ with
  | None => throw RangeErrorNaN
  | Some required =>
      if remaining <? required then throw InsufficientQuota
      else
        let difference := remaining - required in
        r <- randomScalar ;;
        let diffCommitment := pedersenCommit difference r in
        c <- hashToScalar (diffCommitment +:+ JS.toString10 required
                           +:+ challenge_ +:+ nonce_) ;;
        ret ({| proof_a := (diffCommitment, JS.toString16 c);
                proof_b := ((JS.toString16 r, "0"), ("0", "0"));
                proof_c := (commitment cmt, nonce_) |},
             [JS.toString10 required; challenge_])
  end.

(** [generateWorkerAllocationProof]; the comparison of two numbers is exact,
    [difference] is the exact one on safe integers. *)
Definition generateWorkerAllocationProof (secret : LicenseSecret) (cmt : LicenseCommitment)
    (requestedWorkers_ : option Z) (challenge_ nonce_ : string) : M GeneratedProof :=
  let maxWorkers_ := witness_maxWorkers (witnessData secret) in
  match requestedWorkers_ with
  | None => throw RangeErrorNaN
  | Some requested =>
      if maxWorkers_ <? requested then throw ExceedsWorkerLimit
      else
        let difference := maxWorkers_ - requested in
        r <- randomScalar ;;
        let diffCommitment := pedersenCommit difference r in
        c <- hashToScalar (diffCommitment +:+ JS.toString10 requested
                           +:+ challenge_ +:+ nonce_) ;;
        ret ({| proof_a := (diffCommitment, JS.toString16 c);
                proof_b := ((JS.toString16 r, JS.toString10 maxWorkers_), ("0", "0"));
                proof_c := (tierCommitment cmt, nonce_) |},
             [JS.toString10 requested; challenge_])
  end.

(** [generateTimeValidityProof]; the comparison of two numbers is exact,
    [difference] is the exact one on safe integers. *)
Definition generateTimeValidityProof (secret : LicenseSecret) (cmt : LicenseCommitment)
    (currentTimestamp_ : option Z) (challenge_ nonce_ : string) : M GeneratedProof :=
  let expiration := expirationTimestamp (witnessData secret) in
  match currentTimestamp_ with
  | None => throw RangeErrorNaN
  | Some current =>
      if expiration <=? current then throw LicenseExpired
      else
        let difference := expiration - current in
        r <- randomScalar ;;
        let diffCommitment := pedersenCommit difference r in
        c <- hashToScalar (expirationCommitment cmt +:+ diffCommitment
                           +:+ challenge_ +:+ nonce_) ;;
        ret ({| proof_a := (diffCommitment, JS.toString16 c);
                proof_b :=
                  ((JS.toString16 r, blinding_expiration (blindingFactors secret)),
                   ("0", "0"));
                proof_c := (expirationCommitment cmt, nonce_) |},
             [expirationCommitment cmt; JS.toString10 current; challenge_])
  end.

(** [generateProof(secret, commitment, request)], called at time [now]. *)
Definition generateProof (secret : LicenseSecret) (cmt : LicenseCommitment)
    (request : ProofRequest) (now : Z) : M ZKProof :=
  checkRateLimit (commitmentId cmt) now ;;;
  nonceBytes <- randomBytes 16 ;;
  let nonce_ := JS.hexOfBytes nonceBytes in
  let challenge_ := request_challenge request in
  let req := requirements request in
  generated <-
    match request_proofType request with
    | license_ownership =>
        generateOwnershipProof secret cmt challenge_ nonce_
    | tier_membership =>
        generateTierMembershipProof secret cmt (minimumTier req) challenge_ nonce_
    | feature_access =>
        generateFeatureAccessProof secret cmt (requiredFeature req) challenge_ nonce_
    | usage_quota =>
        generateQuotaProof secret cmt (requiredQuota req) challenge_ nonce_
    | worker_allocation =>
        generateWorkerAllocationProof secret cmt (requestedWorkers req) challenge_ nonce_
    | time_validity =>
        generateTimeValidityProof secret cmt (currentTimestamp req) challenge_ nonce_
    end ;;
  proofId_ <- generateId "proof" ;;
  modify count_generated ;;;
  ret {| proofId := proofId_;
         proof_timestamp := now;
         proofType := request_proofType request;
         proof := generated.1;
         publicInputs := generated.2;
         proof_commitmentId := commitmentId cmt;
         verified := false;
         verifiedAt := None;
         nonce := nonce_;
         challenge := challenge_ |}.

(** ** Proof verification (server side) *)

(** The verifiers wrap their body in [try { ... } catch { return false }]. *)

(** [verifyOwnershipProof] *)
Definition verifyOwnershipProof (p : ZKProof) (cmt : LicenseCommitment) : bool :=
  let t := (proof_a (proof p)).1 in
  match JS.BigInt0x (proof_a (proof p)).2,
        JS.BigInt0x (proof_b (proof p)).1.1,
        JS.BigInt0x (proof_b (proof p)).1.2 with
  | Some s1, Some s2, Some c =>
      match pedersenVerify s1 s2 c (commitment cmt) with
      | Some expected => bool_decide (t = expected)
      | None => false
      end
  | _, _, _ => false
  end.

(** [verifyTierMembershipProof] *)
Definition verifyTierMembershipProof (p : ZKProof) (cmt : LicenseCommitment) : bool :=
  match JS.BigInt0x (proof_b (proof p)).1.2 with
  | Some c => bool_decide ((proof_c (proof p)).1 = tierCommitment cmt)
  | None => false
  end.

(** The loop of [verifyFeatureAccessProof] over the two path elements kept
    in [proof.b[0]]. *)
Definition foldPathElement (indices_ : list (option Z)) (currentHash : string)
    (entry : nat * string) : string :=
  if bool_decide (entry.2 = "0") then currentHash
  else
    match indices_ !! entry.1 with
    | Some (Some 0) => hashValues [currentHash; entry.2]
    | _ => hashValues [entry.2; currentHash]
    end.

(** [verifyFeatureAccessProof]: the folded hash is computed and dropped. *)
Definition verifyFeatureAccessProof (p : ZKProof) (cmt : LicenseCommitment) : bool :=
  if bool_decide ((proof_c (proof p)).1 = featureMerkleRoot cmt) then
    let leaf_ := (proof_a (proof p)).1 in
    let pathElements := (proof_b (proof p)).1 in
    let indices_ := map JS.NumberOf (JS.splitComma (proof_b (proof p)).2.1) in
    let currentHash :=
      fold_left (foldPathElement indices_)
                [(0%nat, pathElements.1); (1%nat, pathElements.2)] leaf_ in
    true
  else false.

(** [verifyQuotaProof] *)
Definition verifyQuotaProof (p : ZKProof) (cmt : LicenseCommitment) : bool :=
  let diffCommitment := (proof_a (proof p)).1 in
  (0 <? String.length diffCommitment)%nat.

(** [verifyWorkerAllocationProof] *)
Definition verifyWorkerAllocationProof (p : ZKProof) (cmt : LicenseCommitment) : bool :=
  let diffCommitment := (proof_a (proof p)).1 in
  (0 <? String.length diffCommitment)%nat
  && bool_decide ((proof_c (proof p)).1 = tierCommitment cmt).

(** [verifyTimeValidityProof] *)
Definition verifyTimeValidityProof (p : ZKProof) (cmt : LicenseCommitment) : bool :=
  bool_decide ((proof_c (proof p)).1 = expirationCommitment cmt).

(** [extractProvenClaims] *)
Definition extractProvenClaims (p : ZKProof) (isValid : bool) : ProvenClaims :=
  {| hasValidLicense := isValid && bool_decide (proofType p = license_ownership);
     meetsTierRequirement := Some (isValid && bool_decide (proofType p = tier_membership));
     hasFeatureAccess := Some (isValid && bool_decide (proofType p = feature_access));
     hasQuota := Some (isValid && bool_decide (proofType p = usage_quota));
     hasWorkerCapacity := Some (isValid && bool_decide (proofType p = worker_allocation));
     isNotExpired := Some (isValid && bool_decide (proofType p = time_validity)) |}.

(** [createInvalidResult] *)
Definition createInvalidResult (proofId_ reason : string) (now : Z) : VerificationResult :=
  {| valid := false;
     result_proofId := proofId_;
     result_verifiedAt := now;
     provenClaims :=
       {| hasValidLicense := false; meetsTierRequirement := None;
          hasFeatureAccess := None; hasQuota := None; hasWorkerCapacity := None;
          isNotExpired := None |};
     verificationTime := 0 |}.

(** The [switch] of [verifyProof]. *)
Definition verifyByType (p : ZKProof) (cmt : LicenseCommitment) : bool :=
  match proofType p with
  | license_ownership => verifyOwnershipProof p cmt
  | tier_membership => verifyTierMembershipProof p cmt
  | feature_access => verifyFeatureAccessProof p cmt
  | usage_quota => verifyQuotaProof p cmt
  | worker_allocation => verifyWorkerAllocationProof p cmt
  | time_validity => verifyTimeValidityProof p cmt
  end.

(** The assignments [proof.verified = isValid; proof.verifiedAt = new Date()]
    on the caller's object. *)
Definition markVerified (p : ZKProof) (isValid : bool) (now : Z) : ZKProof :=
  {| proofId := proofId p;
     proof_timestamp := proof_timestamp p;
     proofType := proofType p;
     proof := proof p;
     publicInputs := publicInputs p;
     proof_commitmentId := proof_commitmentId p;
     verified := isValid;
     verifiedAt := Some now;
     nonce := nonce p;
     challenge := challenge p |}.

(** The cache test [cached && cached.expiresAt > Date.now()]. *)
Definition cacheLookup (st : State) (cacheKey : string) (now : Z)
    : option VerificationResult :=
  match proofCache st !! cacheKey with
  | Some cached => if now <? cache_expiresAt cached then Some (result cached) else None
  | None => None
  end.

(** [verifyProof(proof)], called at time [now].  It never throws; besides the
    result it yields the caller's proof object as the call leaves it. *)
Definition verifyProof (p : ZKProof) (now : Z) (st : State)
    : VerificationResult * ZKProof * State :=
  let cacheKey := proofId p in
  match cacheLookup st cacheKey now with
  | Some cachedResult => (cachedResult, p, st)
  | None =>
      match commitments st !! proof_commitmentId p with
      | None => (createInvalidResult (proofId p) "Commitment not found" now, p, st)
      | Some cmt =>
          let isValid := verifyByType p cmt in
          let res :=
            {| valid := isValid;
               result_proofId := proofId p;
               result_verifiedAt := now;
               provenClaims := extractProvenClaims p isValid;
               verificationTime := 0 |} in
          (res, markVerified p isValid now,
           set_proofCache
             (insert cacheKey
                {| result := res;
                   cache_expiresAt := now + verificationCacheMs (config st) |})
             (count_verified isValid st))
      end
  end.

(** ** Proof requests *)

(** [createProofRequest(proofType, requirements)], called at time [now]. *)
Definition createProofRequest (proofType_ : ProofType) (requirements_ : ProofRequirements)
    (now : Z) : M ProofRequest :=
  requestId_ <- generateId "req" ;;
  challengeBytes <- randomBytes 32 ;;
  cfg <- gets config ;;
  ret {| requestId := requestId_;
         request_timestamp := now;
         request_proofType := proofType_;
         requirements := requirements_;
         request_challenge := JS.hexOfBytes challengeBytes;
         expiresAt := now + proofExpirationMs cfg |}.

(** ** Notions the specification uses to state its properties *)

(** Folding a Merkle proof as the specification's [verify] does: from the
    leaf, hash [(current ‖ sibling)] where the stored index is 0 and
    [(sibling ‖ current)] where it is 1. *)
Fixpoint foldMerklePath (current : string) (path_ : list string) (indices_ : list Z)
    : string :=
  match path_, indices_ with
  | sibling :: path', index :: indices' =>
      foldMerklePath
        (if index =? 0 then hashValues [current; sibling]
         else hashValues [sibling; current])
        path' indices'
  | _, _ => current
  end.

Definition foldMerkleProof (mp : MerkleProof) : string :=
  foldMerklePath (leaf mp) (path mp) (indices mp).

(** The group operation the specification names for commitments: addition
    modulo the field modulus, on commitments decoded as [pedersenVerify]
    decodes them and encoded as [pedersenCommit] encodes them. *)
Definition combineCommitments (c1 c2 : string) : option string :=
  match JS.BigInt0x c1, JS.BigInt0x c2 with
  | Some n1, Some n2 =>
      Some (JS.padStart0 64 (JS.toString16 (Z.rem (n1 + n2) (fieldModulus circuitParams))))
  | _, _ => None
  end.

(** A scalar, as [randomScalar] and [hashToScalar] produce them. *)
Definition isScalar (n : Z) : Prop := 0 <= n < groupOrder circuitParams.

(** The strings of a proof that tampering may touch: [proof.a], [proof.b],
    [proof.c], then [publicInputs]. *)
Definition proofStrings (p : ZKProof) : list string :=
  [(proof_a (proof p)).1; (proof_a (proof p)).2;
   (proof_b (proof p)).1.1; (proof_b (proof p)).1.2;
   (proof_b (proof p)).2.1; (proof_b (proof p)).2.2;
   (proof_c (proof p)).1; (proof_c (proof p)).2] ++ publicInputs p.

(** [s'] is [s] with one byte replaced by a different one. *)
Definition oneByteChanged (s s' : string) : Prop :=
  exists (before after : string) (old new : ascii),
    old <> new /\ s = before +:+ String old after /\ s' = before +:+ String new after.

(** [p'] is [p] with one byte of its [i]-th string changed and everything
    else as it was. *)
Definition tamperedAt (i : nat) (p p' : ZKProof) : Prop :=
  proofId p' = proofId p /\
  proofType p' = proofType p /\
  proof_commitmentId p' = proof_commitmentId p /\
  nonce p' = nonce p /\
  challenge p' = challenge p /\
  exists s s', proofStrings p !! i = Some s /\ oneByteChanged s s' /\
               proofStrings p' = <[i := s']> (proofStrings p).

(** The string of a proof that its verifier compares with a value it
    recomputes or holds: [proof.a[0]] for license ownership, [proof.c[0]]
    for the types checked against a stored commitment or root; the
    usage-quota verifier compares none. *)
Definition comparedString (t : ProofType) : option nat :=
  match t with
  | license_ownership => Some 0%nat
  | usage_quota => None
  | tier_membership | feature_access | worker_allocation | time_validity => Some 6%nat
  end.

(** A run of [generateProof] calls, each at its own time. *)
Record Call := {
  call_secret : LicenseSecret;
  call_commitment : LicenseCommitment;
  call_request : ProofRequest;
  call_time : Z
}.

Definition generateProofCall (c : Call) : M ZKProof :=
  generateProof (call_secret c) (call_commitment c) (call_request c) (call_time c).

Fixpoint runCalls (calls : list Call) (st : State) : list (Outcome ZKProof) * State :=
  match calls with
  | [] => ([], st)
  | c :: rest =>
      let r := generateProofCall c st in
      let rs := runCalls rest r.2 in
      (r.1 :: rs.1, rs.2)
  end.

(** A call for commitment [cid] inside the hourly window opened at the
    state's [proofCountReset]. *)
Definition inWindow (st : State) (cid : string) (c : Call) : Prop :=
  commitmentId (call_commitment c) = cid /\
  call_time c - proofCountReset st <= 3600000.

(** ** A concrete run, for evaluating the model *)

Module Demo.

Definition source (i : nat) : Z := Z.of_nat i * 37 + 11.

(** An engine built with the default configuration at time 1000. *)
Definition engine : State := construct DEFAULT_CONFIG 1000 source.

Definition noRequirements : ProofRequirements :=
  {| minimumTier := None; requiredFeature := None; requiredQuota := None;
     requestedWorkers := None; currentTimestamp := None |}.

Definition needTier (t : LicenseTier) : ProofRequirements :=
  {| minimumTier := Some t; requiredFeature := None; requiredQuota := None;
     requestedWorkers := None; currentTimestamp := None |}.

Definition needFeature (f : string) : ProofRequirements :=
  {| minimumTier := None; requiredFeature := Some f; requiredQuota := None;
     requestedWorkers := None; currentTimestamp := None |}.

Definition needQuota (q : Z) : ProofRequirements :=
  {| minimumTier := None; requiredFeature := None; requiredQuota := Some q;
     requestedWorkers := None; currentTimestamp := None |}.

Definition needWorkers (w : Z) : ProofRequirements :=
  {| minimumTier := None; requiredFeature := None; requiredQuota := None;
     requestedWorkers := Some w; currentTimestamp := None |}.

Definition needTime (t : Z) : ProofRequirements :=
  {| minimumTier := None; requiredFeature := None; requiredQuota := None;
     requestedWorkers := None; currentTimestamp := Some t |}.

(** The expiration date 2027-01-15T08:00:00Z. *)
Definition expirationDate : Date := TimeValue 1800000000000.

(** Issue a license at time 2000, ask for a proof at 3000, generate it at
    4000: the license, the request, the proof and the state reached. *)
Definition issueAndProve (t : LicenseTier) (pt : ProofType) (rq : ProofRequirements)
    : M (LicenseCommitment * LicenseSecret * ProofRequest * ZKProof) :=
  lic <- createLicense t expirationDate 2000 ;;
  request <- createProofRequest pt rq 3000 ;;
  p <- generateProof lic.2 lic.1 request 4000 ;;
  ret (lic.1, lic.2, request, p).

(** The same, followed by verification at time 5000: the verdict. *)
Definition roundTrip (t : LicenseTier) (pt : ProofType) (rq : ProofRequirements)
    : Outcome bool :=
  match issueAndProve t pt rq engine with
  | (Returned (_, _, _, p), st) => Returned (valid (verifyProof p 5000 st).1.1)
  | (Thrown e, _) => Thrown e
  end.

(** The value of a computation that returned. *)
Definition returnedValue {A} (o : Outcome A)
    : match o with Returned _ => A | Thrown _ => unit end :=
  match o with
  | Returned a => a
  | Thrown _ => tt
  end.

(** The runs used below, evaluated once. *)
Definition issuedTrial : Outcome (LicenseCommitment * LicenseSecret) * State :=
  Eval vm_compute in createLicense trial expirationDate 2000 engine.

Definition trialCommitment : LicenseCommitment := (returnedValue issuedTrial.1).1.
Definition trialSecret : LicenseSecret := (returnedValue issuedTrial.1).2.

Definition ownershipRun :=
  Eval vm_compute in issueAndProve enterprise license_ownership noRequirements engine.

Definition ownershipProof : ZKProof := (returnedValue ownershipRun.1).2.

Definition tierRun :=
  Eval vm_compute in issueAndProve trial tier_membership (needTier unlimited) engine.

Definition tierProof : ZKProof := (returnedValue tierRun.1).2.

Definition quotaRun :=
  Eval vm_compute in issueAndProve enterprise usage_quota (needQuota 500) engine.

Definition quotaProof : ZKProof := (returnedValue quotaRun.1).2.

(** A request as [createProofRequest] builds them, with a fixed challenge. *)
Definition request (pt : ProofType) (rq : ProofRequirements) : ProofRequest :=
  {| requestId := "req_000102030405060708090a0b0c0d0e0f";
     request_timestamp := 3000;
     request_proofType := pt;
     requirements := rq;
     request_challenge :=
       "6b90b5daff24496e93b8dd02274c7196bbe0052a4f7499bee3082d52779cc1e6";
     expiresAt := 303000 |}.

Definition issuedUnlimited : Outcome (LicenseCommitment * LicenseSecret) * State :=
  Eval vm_compute in createLicense unlimited expirationDate 2000 engine.

Definition unlimitedCommitment : LicenseCommitment := (returnedValue issuedUnlimited.1).1.
Definition unlimitedSecret : LicenseSecret := (returnedValue issuedUnlimited.1).2.

(** The commitment a run ended with. *)
Definition ownershipCommitment : LicenseCommitment := (returnedValue ownershipRun.1).1.1.1.

(** What [verifyOwnershipProof] recomputes for a proof: the value it
    expects in [proof.a[0]]. *)
Definition recomputed (p : ZKProof) (cmt : LicenseCommitment) : option string :=
  s1 ← JS.BigInt0x (proof_a (proof p)).2;
  s2 ← JS.BigInt0x (proof_b (proof p)).1.1;
  c ← JS.BigInt0x (proof_b (proof p)).1.2;
  pedersenVerify s1 s2 c (commitment cmt).

(** [p] with its public inputs replaced. *)
Definition withPublicInputs (inputs : list string) (p : ZKProof) : ZKProof :=
  {| proofId := proofId p; proof_timestamp := proof_timestamp p;
     proofType := proofType p; proof := proof p; publicInputs := inputs;
     proof_commitmentId := proof_commitmentId p; verified := verified p;
     verifiedAt := verifiedAt p; nonce := nonce p; challenge := challenge p |}.

(** [p] with [proof.c[0]] replaced. *)
Definition withC0 (c0 : string) (p : ZKProof) : ZKProof :=
  {| proofId := proofId p; proof_timestamp := proof_timestamp p;
     proofType := proofType p;
     proof := {| proof_a := proof_a (proof p); proof_b := proof_b (proof p);
                 proof_c := (c0, (proof_c (proof p)).2) |};
     publicInputs := publicInputs p;
     proof_commitmentId := proof_commitmentId p; verified := verified p;
     verifiedAt := verifiedAt p; nonce := nonce p; challenge := challenge p |}.

End Demo.

(** ** Values the proofs speak about *)

Definition isByte (b : Z) : Prop := 0 <= b < 256.

(** The number a run of bytes spells, most significant first. *)
Definition bytesValue (acc : Z) (bs : list Z) : Z :=
  fold_left (fun a b => a * 256 + b) bs acc.

(** The number a SHA-256 digest spells. *)
Definition digestValue (s : string) : Z :=
  bytesValue 0 (SHA256.digest (JS.bytesOfString s)).

Definition scalarOfHash (s : string) : Z := Z.rem (digestValue s) (groupOrder circuitParams).

Definition drawnBytes (st : State) (n : nat) : list Z :=
  map (fun i => randomSource st (randomCursor st + i)%nat mod 256) (seq 0 n).

Definition drawnScalar (st : State) : Z :=
  Z.rem (bytesValue 0 (drawnBytes st 32)) (groupOrder circuitParams).

(** The number of proofs counted for a commitment in the current window:
    [this.proofCounts.get(commitmentId) || 0]. *)
Definition countOf (st : State) (cid : string) : Z :=
  default 0 (proofCounts st !! cid).

(** What the rate limiter reads and writes. *)
Definition limiterView (st : State) : ZeroKnowledgeLicenseConfig * gmap string Z * Z :=
  (config st, proofCounts st, proofCountReset st).

(** A computation that leaves the rate limiter alone and never reports a
    rate-limit error. *)
Definition keepsLimiter {A} (m : M A) : Prop :=
  forall st, limiterView (m st).2 = limiterView st /\ (m st).1 <> Thrown RateLimitExceeded.

(** The remaining quota is a safe integer: the source's subtraction
    [usageQuota - usedQuota], on numbers, is then the exact one. *)
Definition exactRemaining (w : WitnessData) : Prop :=
  JS.isSafeInteger (usageQuota w - usedQuota w) = true.

(** An optional number is a safe integer when it is present. *)
Definition safeOption (n : option Z) : Prop :=
  match n with
  | Some z => JS.isSafeInteger z = true
  | None => True
  end.

(** The numbers the generator of a proof type compares and subtracts are
    safe integers, so that the source computes on them exactly and every
    difference it hands to [BigInt] is finite. *)
Definition safeNumbers (cfg : ZeroKnowledgeLicenseConfig) (w : WitnessData)
    (pt : ProofType) (rq : ProofRequirements) : Prop :=
  match pt with
  | license_ownership | feature_access => True
  | tier_membership =>
      JS.isSafeInteger (tierValue w) = true
      /\ safeOption (tierHierarchy cfg <$> minimumTier rq)
  | usage_quota => exactRemaining w /\ safeOption (requiredQuota rq)
  | worker_allocation =>
      JS.isSafeInteger (witness_maxWorkers w) = true /\ safeOption (requestedWorkers rq)
  | time_validity =>
      JS.isSafeInteger (expirationTimestamp w) = true /\ safeOption (currentTimestamp rq)
  end.

(** The witness does not satisfy the statement a request asks to prove, and
    the error the generator answers with. *)
Inductive WitnessViolation (w : WitnessData) : ProofType -> ProofRequirements -> Error -> Prop :=
| quota_short rq q :
    requiredQuota rq = Some q -> usageQuota w - usedQuota w < q ->
    WitnessViolation w usage_quota rq InsufficientQuota
| workers_over rq n :
    requestedWorkers rq = Some n -> witness_maxWorkers w < n ->
    WitnessViolation w worker_allocation rq ExceedsWorkerLimit
| license_expired rq t :
    currentTimestamp rq = Some t -> expirationTimestamp w <= t ->
    WitnessViolation w time_validity rq LicenseExpired
| feature_absent rq f :
    requiredFeature rq = Some f -> featureMerkleProofs w !! f = None ->
    WitnessViolation w feature_access rq (FeatureNotLicensed f).

(** The requirement a request needs is present and the witness passes the
    generator's own check, when it has one. *)
Inductive Generates (w : WitnessData) : ProofType -> ProofRequirements -> Prop :=
| generates_ownership rq : Generates w license_ownership rq
| generates_tier rq mt :
    minimumTier rq = Some mt -> Generates w tier_membership rq
| generates_feature rq f mp :
    requiredFeature rq = Some f -> featureMerkleProofs w !! f = Some mp ->
    Generates w feature_access rq
| generates_quota rq q :
    requiredQuota rq = Some q -> q <= usageQuota w - usedQuota w ->
    Generates w usage_quota rq
| generates_workers rq n :
    requestedWorkers rq = Some n -> n <= witness_maxWorkers w ->
    Generates w worker_allocation rq
| generates_time rq t :
    currentTimestamp rq = Some t -> t < expirationTimestamp w ->
    Generates w time_validity rq.

(** What the verifier keeps: the registry, the cache and its counters. *)
Definition ledgerView (st : State)
    : gmap string LicenseCommitment * gmap string CacheEntry * Z * Z * Z :=
  (commitments st, proofCache st, totalProofsVerified st, totalValidProofs st,
   totalInvalidProofs st).

(** [getCommitment(commitmentId)] *)
Definition getCommitment (commitmentId_ : string) (st : State) : option LicenseCommitment :=
  commitments st !! commitmentId_.

(** A proof of type [pt] for the registered commitment [cmt], filled in
    from public data alone: the one string the verifier of the type compares
    is copied from the commitment, every other string is ["0"]. *)
Definition publicDataProof (pt : ProofType) (cmt : LicenseCommitment) (proofId_ : string)
    : ZKProof :=
  {| proofId := proofId_;
     proof_timestamp := 0;
     proofType := pt;
     proof :=
       {| proof_a := ("0", "0");
          proof_b := (("0", "0"), ("0", "0"));
          proof_c :=
            (match pt with
             | tier_membership | worker_allocation => tierCommitment cmt
             | feature_access => featureMerkleRoot cmt
             | time_validity => expirationCommitment cmt
             | license_ownership | usage_quota => commitment cmt
             end, "0") |};
     publicInputs := [];
     proof_commitmentId := commitmentId cmt;
     verified := false;
     verifiedAt := None;
     nonce := "0";
     challenge := "0" |}.

(** A computation that leaves the verifier's ledger alone. *)
Definition keepsLedger {A} (m : M A) : Prop :=
  forall st, ledgerView (m st).2 = ledgerView st.

(** One call of the engine's public interface. *)
Inductive Step (st : State) : State -> Prop :=
| step_createLicense t expirationDate now :
    Step st (createLicense t expirationDate now st).2
| step_createProofRequest pt rq now :
    Step st (createProofRequest pt rq now st).2
| step_generateProof secret cmt request now :
    Step st (generateProof secret cmt request now st).2
| step_verifyProof p now :
    Step st (verifyProof p now st).2.

(** The states an engine built with [cfg] can reach. *)
Definition Reachable (cfg : ZeroKnowledgeLicenseConfig) (st : State) : Prop :=
  exists now source, rtc Step (construct cfg now source) st.

Record Invariant (cfg : ZeroKnowledgeLicenseConfig) (st : State) : Prop := {
  inv_config : config st = cfg;
  inv_metrics : totalProofsVerified st = totalValidProofs st + totalInvalidProofs st;
  inv_registry : forall id cmt, commitments st !! id = Some cmt -> commitmentId cmt = id;
  inv_cache : forall id e, proofCache st !! id = Some e -> result_proofId (result e) = id;
  inv_counts : forall cid n, proofCounts st !! cid = Some n -> 1 <= n <= maxProofsPerHour cfg
}.

(** The run of [src/Veritas_Web/js/test_zk.ts]: a fresh engine, an
    enterprise license expiring in an hour, a feature-access request for
    ['stealth-mode'], the proof and its verification; [t0] to [t4] are the
    instants of the five calls.  The result is [result.valid]. *)
Definition test_zk_run (source : nat -> Z) (t0 t1 t2 t3 t4 : Z) : Outcome bool :=
  ((lic <- createLicense enterprise (TimeValue (t1 + 3600000)) t1 ;;
    req <- createProofRequest feature_access
             {| minimumTier := None; requiredFeature := Some "stealth-mode";
                requiredQuota := None; requestedWorkers := None;
                currentTimestamp := None |} t2 ;;
    p <- generateProof lic.2 lic.1 req t3 ;;
    fun st => (Returned (valid (verifyProof p t4 st).1.1), (verifyProof p t4 st).2))
     (construct DEFAULT_CONFIG t0 source)).1.

(** ** The browser build: [src/Veritas_Web/js/ZeroKnowledgeLicense.real.js]

    Its circuit parameters are the ones of the TypeScript class; its
    commitment multiplies modular powers instead of adding products. *)

Module Real.

(** The [while (exp > 0)] loop of [modPow]; the exponent is halved at every
    pass, so as many passes as it has bits are enough. *)
Fixpoint modPowLoop (fuel : nat) (res base exp modulus : Z) : Z :=
  match fuel with
  | O => res
  | S f =>
      if 0 <? exp then
        modPowLoop f
          (if Z.rem exp 2 =? 1 then Z.rem (res * base) modulus else res)
          (Z.rem (base * base) modulus)
          (Z.quot exp 2) modulus
      else res
  end.

(** [modPow(base, exp, mod)]; [None] is the [RangeError] of a division by
    zero. *)
Definition modPow (base exp modulus : Z) : option Z :=
  if modulus =? 0 then None
  else Some (modPowLoop (JS.digitFuel exp) 1 (Z.rem base modulus) exp modulus).

(** [pedersenCommit(value, blinding)] *)
Definition pedersenCommit (value blinding : Z) : option string :=
  g_v ← modPow (x (g1 circuitParams)) value (fieldModulus circuitParams);
  h_r ← modPow (x (h circuitParams)) blinding (fieldModulus circuitParams);
  Some (JS.padStart0 64 (JS.toString16 (Z.rem (g_v * h_r) (fieldModulus circuitParams)))).

End Real.

(** * Verification *)


(** ** Hexadecimal encoding and decoding *)

Section Hex.

Lemma hexValue_digitChar d : 0 <= d < 16 -> JS.hexValue (JS.digitChar d) = Some d.
Proof.
  intros Hd.
  rewrite <- (Z2Nat.id d) by lia.
  assert (Hn : (Z.to_nat d < 16)%nat) by lia.
  revert Hn. generalize (Z.to_nat d). intros n Hn.
  do 16 (destruct n as [|n]; [reflexivity|]). lia.
Qed.

Lemma parseHexAcc_app s1 s2 : forall acc,
  JS.parseHexAcc acc (s1 +:+ s2)
  = match JS.parseHexAcc acc s1 with
    | Some v => JS.parseHexAcc v s2
    | None => None
    end.
Proof.
  induction s1 as [|a s1 IH]; intros acc; simpl; [reflexivity|].
  destruct (JS.hexValue a); [apply IH | reflexivity].
Qed.

Lemma parseHexAcc_digits fuel : forall n,
  0 <= n < 2 ^ Z.of_nat fuel ->
  JS.parseHexAcc 0 (JS.digits 16 fuel n) = Some n.
Proof.
  induction fuel as [|fuel IH]; intros n Hn.
  - simpl in *. f_equal. lia.
  - cbn [JS.digits]. destruct (Z.ltb_spec n 16) as [Hlt|Hge].
    + cbn [JS.parseHexAcc]. rewrite hexValue_digitChar by lia. f_equal. 
    + rewrite parseHexAcc_app, IH.
      * cbn [JS.parseHexAcc].
        rewrite hexValue_digitChar by (apply Z.mod_pos_bound; lia).
        f_equal. pose proof (Z.div_mod n 16). lia.
      * split; [apply Z.div_pos; lia|].
        rewrite Nat2Z.inj_succ, Z.pow_succ_r in Hn by lia.
        apply Z.div_lt_upper_bound; lia.
Qed.

Lemma digitFuel_enough n : 0 <= n -> n < 2 ^ Z.of_nat (JS.digitFuel n).
Proof.
  intros Hn. unfold JS.digitFuel.
  rewrite Nat2Z.inj_succ, Z2Nat.id by apply Z.log2_nonneg.
  destruct (Z.eq_dec n 0) as [->|Hz]; [reflexivity|].
  apply Z.log2_spec. lia.
Qed.

Lemma digits_nonempty radix fuel n : JS.digits radix (S fuel) n <> "".
Proof.
  cbn [JS.digits]. destruct (n <? radix); [discriminate|].
  destruct (JS.digits radix fuel (n / radix)); discriminate.
Qed.

Lemma toString16_nonneg n : 0 <= n -> JS.toString16 n = JS.digits 16 (JS.digitFuel n) n.
Proof.
  intros Hn. unfold JS.toString16, JS.toStringRadix.
  destruct (Z.ltb_spec n 0); [lia | reflexivity].
Qed.

Lemma parseHexAcc_toString16 n : 0 <= n -> JS.parseHexAcc 0 (JS.toString16 n) = Some n.
Proof.
  intros Hn. rewrite toString16_nonneg by assumption.
  apply parseHexAcc_digits. split; [assumption | by apply digitFuel_enough].
Qed.

Lemma hexValue_not_white a d : JS.hexValue a = Some d -> JS.isWhiteSpace a = false.
Proof.
  destruct a as [[] [] [] [] [] [] [] []]; vm_compute; congruence.
Qed.

(** A string of hex digits has no trailing white space to strip. *)
Lemma trimEnd_hex s : forall acc v, JS.parseHexAcc acc s = Some v -> JS.trimEnd s = s.
Proof.
  induction s as [|a s IH]; intros acc v; simpl; [reflexivity|].
  destruct (JS.hexValue a) as [d|] eqn:Ha; [|discriminate].
  intros Hs. rewrite (IH _ _ Hs).
  destruct s; [|reflexivity].
  by rewrite (hexValue_not_white _ _ Ha).
Qed.

Lemma BigInt0x_parse s v :
  s <> "" -> JS.parseHexAcc 0 s = Some v -> JS.BigInt0x s = Some v.
Proof.
  intros Hne Hs. unfold JS.BigInt0x. rewrite (trimEnd_hex _ _ _ Hs).
  destruct s; [contradiction | assumption].
Qed.

Lemma parseHexAcc_zeros k s : JS.parseHexAcc 0 (JS.zeros k +:+ s) = JS.parseHexAcc 0 s.
Proof. induction k as [|k IH]; [reflexivity | exact IH]. Qed.

Lemma padStart0_nonempty k s : s <> "" -> JS.padStart0 k s <> "".
Proof.
  intros Hs. unfold JS.padStart0.
  destruct (JS.zeros _); [assumption | discriminate].
Qed.

Lemma toString16_nonempty n : JS.toString16 n <> "".
Proof.
  unfold JS.toString16, JS.toStringRadix, JS.digitFuel.
  destruct (n <? 0); [discriminate | apply digits_nonempty].
Qed.

(** Reading back what [toString(16)] printed, padded or not. *)
Lemma BigInt0x_toString16 n : 0 <= n -> JS.BigInt0x (JS.toString16 n) = Some n.
Proof.
  intros Hn. apply BigInt0x_parse;
    [apply toString16_nonempty | by apply parseHexAcc_toString16].
Qed.

Lemma BigInt0x_padded n :
  0 <= n -> JS.BigInt0x (JS.padStart0 64 (JS.toString16 n)) = Some n.
Proof.
  intros Hn. apply BigInt0x_parse.
  - apply padStart0_nonempty, toString16_nonempty.
  - unfold JS.padStart0. rewrite parseHexAcc_zeros. by apply parseHexAcc_toString16.
Qed.

Lemma padded_inj n m :
  0 <= n -> 0 <= m ->
  JS.padStart0 64 (JS.toString16 n) = JS.padStart0 64 (JS.toString16 m) -> n = m.
Proof.
  intros Hn Hm Heq.
  pose proof (BigInt0x_padded n Hn) as H1.
  rewrite Heq, (BigInt0x_padded m Hm) in H1. congruence.
Qed.

End Hex.


(** ** Byte strings and digests *)



Lemma bytesValue_nonneg bs : forall acc, 0 <= acc -> Forall isByte bs -> 0 <= bytesValue acc bs.
Proof.
  induction bs as [|b bs IH]; intros acc Hacc Hbs; simpl; [assumption|].
  inversion Hbs as [|? ? Hb Hrest]; subst. apply IH; [unfold isByte in Hb; lia | assumption].
Qed.

Lemma parseHexAcc_hexOfByte b acc :
  isByte b -> JS.parseHexAcc acc (JS.hexOfByte b) = Some (acc * 256 + b).
Proof.
  intros Hb. unfold isByte in Hb. unfold JS.hexOfByte. cbn [JS.parseHexAcc].
  rewrite hexValue_digitChar by (split; [apply Z.div_pos | apply Z.div_lt_upper_bound]; lia).
  rewrite hexValue_digitChar by (apply Z.mod_pos_bound; lia).
  f_equal. pose proof (Z.div_mod b 16). lia.
Qed.

Lemma parseHexAcc_hexOfBytes bs : forall acc,
  Forall isByte bs -> JS.parseHexAcc acc (JS.hexOfBytes bs) = Some (bytesValue acc bs).
Proof.
  induction bs as [|b bs IH]; intros acc Hbs; [reflexivity|].
  inversion Hbs as [|? ? Hb Hrest]; subst.
  change (JS.hexOfBytes (b :: bs)) with (JS.hexOfByte b +:+ JS.hexOfBytes bs).
  rewrite parseHexAcc_app, parseHexAcc_hexOfByte by assumption.
  by apply IH.
Qed.

Lemma hexOfBytes_nonempty bs : bs <> [] -> JS.hexOfBytes bs <> "".
Proof. destruct bs; [congruence | discriminate]. Qed.

Lemma BigInt0x_hexOfBytes bs :
  bs <> [] -> Forall isByte bs -> JS.BigInt0x (JS.hexOfBytes bs) = Some (bytesValue 0 bs).
Proof.
  intros Hne Hbs. apply BigInt0x_parse;
    [by apply hexOfBytes_nonempty | by apply parseHexAcc_hexOfBytes].
Qed.

Lemma bigEndian_bytes n : forall v, Forall isByte (SHA256.bigEndian n v).
Proof.
  induction n as [|n IH]; intros v; simpl; [constructor|].
  apply Forall_app. split; [apply IH|].
  constructor; [apply Z.mod_pos_bound; lia | constructor].
Qed.

Lemma step_length s kw : length s = 8%nat -> length (SHA256.step s kw) = 8%nat.
Proof.
  intros Hs. do 9 (destruct s as [|? s]; try discriminate). reflexivity.
Qed.

Lemma steps_length kws : forall s,
  length s = 8%nat -> length (fold_left SHA256.step kws s) = 8%nat.
Proof.
  induction kws as [|kw kws IH]; intros s Hs; simpl; [assumption|].
  apply IH, step_length, Hs.
Qed.

Lemma compress_length hh block :
  length hh = 8%nat -> length (SHA256.compress hh block) = 8%nat.
Proof.
  intros Hh. unfold SHA256.compress.
  rewrite length_map, length_combine, steps_length by assumption. lia.
Qed.

Lemma absorb_length fuel : forall hh bs,
  length hh = 8%nat -> length (SHA256.absorb fuel hh bs) = 8%nat.
Proof.
  induction fuel as [|fuel IH]; intros hh bs Hh; simpl; [assumption|].
  destruct bs; [assumption|]. apply IH, compress_length, Hh.
Qed.

Lemma digest_bytes msg : Forall isByte (SHA256.digest msg).
Proof.
  unfold SHA256.digest. apply Forall_flat_map, Forall_forall.
  intros w _. apply bigEndian_bytes.
Qed.

Lemma digest_nonempty msg : SHA256.digest msg <> [].
Proof.
  unfold SHA256.digest.
  pose proof (absorb_length (length (SHA256.pad msg)) SHA256.H0 (SHA256.pad msg) eq_refl) as Hl.
  destruct (SHA256.absorb _ _ _) as [|w ws]; [discriminate|].
  simpl. destruct (SHA256.bigEndian 3 (w / 256)); discriminate.
Qed.


Lemma BigInt0x_sha256 s : JS.BigInt0x (SHA256.hex s) = Some (digestValue s).
Proof. apply BigInt0x_hexOfBytes; [apply digest_nonempty | apply digest_bytes]. Qed.

Lemma digestValue_nonneg s : 0 <= digestValue s.
Proof. apply bytesValue_nonneg; [lia | apply digest_bytes]. Qed.

(** ** The monad *)

Lemma bind_returned {A B} (m : M A) (k : A -> M B) st a st' :
  m st = (Returned a, st') -> bind m k st = k a st'.
Proof. unfold bind. by intros ->. Qed.

Lemma bind_thrown {A B} (m : M A) (k : A -> M B) st e st' :
  m st = (Thrown e, st') -> bind m k st = (Thrown e, st').
Proof. unfold bind. by intros ->. Qed.

Lemma bind_inv {A B} (m : M A) (k : A -> M B) st b st' :
  bind m k st = (Returned b, st') ->
  exists a st1, m st = (Returned a, st1) /\ k a st1 = (Returned b, st').
Proof.
  unfold bind. destruct (m st) as [[a|e] st1]; [eauto | discriminate].
Qed.

(** ** Scalars: the draws and hashes never throw *)

Lemma groupOrder_pos : 0 < groupOrder circuitParams.
Proof. reflexivity. Qed.

Lemma fieldModulus_pos : 0 < fieldModulus circuitParams.
Proof. reflexivity. Qed.


Lemma scalarOfHash_scalar s : isScalar (scalarOfHash s).
Proof.
  apply Z.rem_bound_pos; [apply digestValue_nonneg | apply groupOrder_pos].
Qed.

Lemma hashToScalar_returns value st :
  hashToScalar value st = (Returned (scalarOfHash value), st).
Proof.
  unfold hashToScalar, BigInt0x. by rewrite BigInt0x_sha256.
Qed.


Lemma drawnBytes_bytes st n : Forall isByte (drawnBytes st n).
Proof.
  apply Forall_forall. intros b Hb. apply list_elem_of_In, in_map_iff in Hb.
  destruct Hb as (i & <- & _).
  apply Z.mod_pos_bound. lia.
Qed.

Lemma drawnBytes_nonempty st n : drawnBytes st (S n) <> [].
Proof. discriminate. Qed.


Lemma drawnScalar_scalar st : isScalar (drawnScalar st).
Proof.
  apply Z.rem_bound_pos; [|apply groupOrder_pos].
  apply bytesValue_nonneg; [lia | apply drawnBytes_bytes].
Qed.

Lemma randomBytes_returns n st :
  randomBytes n st = (Returned (drawnBytes st n), advance_cursor n st).
Proof. reflexivity. Qed.

Lemma randomScalar_returns st :
  randomScalar st = (Returned (drawnScalar st), advance_cursor 32 st).
Proof.
  unfold randomScalar.
  rewrite (bind_returned _ _ _ _ _ (randomBytes_returns 32 st)).
  unfold BigInt0x.
  rewrite (BigInt0x_hexOfBytes (drawnBytes st 32) (drawnBytes_nonempty st 31) (drawnBytes_bytes st 32)).
  unfold bind, ret, drawnScalar.
  reflexivity.
Qed.

(** Running one step of a computation. *)

Lemma run_ret {A B} (a : A) (k : A -> M B) st : bind (ret a) k st = k a st.
Proof. reflexivity. Qed.

Lemma run_throw {A B} e (k : A -> M B) st : bind (throw e) k st = (Thrown e, st).
Proof. reflexivity. Qed.

Lemma run_gets {A B} (f : State -> A) (k : A -> M B) st : bind (gets f) k st = k (f st) st.
Proof. reflexivity. Qed.

Lemma run_modify {B} (f : State -> State) (k : unit -> M B) st :
  bind (modify f) k st = k tt (f st).
Proof. reflexivity. Qed.

Lemma run_randomBytes {B} n (k : list Z -> M B) st :
  bind (randomBytes n) k st = k (drawnBytes st n) (advance_cursor n st).
Proof. reflexivity. Qed.

Lemma run_randomScalar {B} (k : Z -> M B) st :
  bind randomScalar k st = k (drawnScalar st) (advance_cursor 32 st).
Proof. apply bind_returned, randomScalar_returns. Qed.

Lemma run_hashToScalar {B} value (k : Z -> M B) st :
  bind (hashToScalar value) k st = k (scalarOfHash value) st.
Proof. apply bind_returned, hashToScalar_returns. Qed.

Lemma run_generateId {B} prefix (k : string -> M B) st :
  bind (generateId prefix) k st
  = k (prefix +:+ "_" +:+ JS.hexOfBytes (drawnBytes st 16)) (advance_cursor 16 st).
Proof. reflexivity. Qed.

Lemma run_assoc {A B C} (m : M A) (k : A -> M B) (k' : B -> M C) st :
  bind (bind m k) k' st = bind m (fun a => bind (k a) k') st.
Proof. unfold bind. destruct (m st) as [[a|e] st1]; reflexivity. Qed.

Ltac run :=
  repeat (first
    [ rewrite run_assoc
    | rewrite run_randomScalar | rewrite run_hashToScalar | rewrite run_generateId
    | rewrite run_randomBytes | rewrite run_gets | rewrite run_modify
    | rewrite run_ret | rewrite run_throw ];
    cbv beta).

(** ** What leaves the rate limiter alone *)

Lemma keeps_ret {A} (a : A) : keepsLimiter (ret a).
Proof. intros st. split; [reflexivity | discriminate]. Qed.

Lemma keeps_throw {A} e : e <> RateLimitExceeded -> keepsLimiter (@throw A e).
Proof. intros He st. split; [reflexivity | simpl; congruence]. Qed.

Lemma keeps_gets {A} (f : State -> A) : keepsLimiter (gets f).
Proof. intros st. split; [reflexivity | discriminate]. Qed.

Lemma keeps_bind {A B} (m : M A) (k : A -> M B) :
  keepsLimiter m -> (forall a, keepsLimiter (k a)) -> keepsLimiter (bind m k).
Proof.
  intros Hm Hk st. unfold bind. destruct (Hm st) as [Hv Hne].
  destruct (m st) as [[a|e] st1]; simpl in *.
  - destruct (Hk a st1) as [Hv' Hne']. split; [congruence | exact Hne'].
  - split; [exact Hv | intros [= ->]; by apply Hne].
Qed.

Lemma keeps_randomBytes n : keepsLimiter (randomBytes n).
Proof. intros st. split; [reflexivity | discriminate]. Qed.

Lemma keeps_randomScalar : keepsLimiter randomScalar.
Proof. intros st. rewrite randomScalar_returns. split; [reflexivity | discriminate]. Qed.

Lemma keeps_hashToScalar value : keepsLimiter (hashToScalar value).
Proof. intros st. rewrite hashToScalar_returns. split; [reflexivity | discriminate]. Qed.

Lemma keeps_generateId prefix : keepsLimiter (generateId prefix).
Proof. intros st. split; [reflexivity | discriminate]. Qed.

Lemma keeps_count_generated : keepsLimiter (modify count_generated).
Proof. intros st. split; [reflexivity | discriminate]. Qed.

Ltac keeps :=
  repeat first
    [ apply keeps_ret | apply keeps_gets | apply keeps_randomBytes
    | apply keeps_randomScalar | apply keeps_hashToScalar | apply keeps_generateId
    | apply keeps_count_generated
    | apply keeps_throw; discriminate
    | apply keeps_bind; [|intros ?]
    | match goal with
      | |- keepsLimiter (match ?x with _ => _ end) => destruct x
      end ].

Lemma keeps_generateOwnershipProof secret cmt ch nc :
  keepsLimiter (generateOwnershipProof secret cmt ch nc).
Proof. unfold generateOwnershipProof. keeps. Qed.

Lemma keeps_generateTierMembershipProof secret cmt mt ch nc :
  keepsLimiter (generateTierMembershipProof secret cmt mt ch nc).
Proof. unfold generateTierMembershipProof. keeps. Qed.

Lemma keeps_generateFeatureAccessProof secret cmt rf ch nc :
  keepsLimiter (generateFeatureAccessProof secret cmt rf ch nc).
Proof. unfold generateFeatureAccessProof. keeps. Qed.

Lemma keeps_generateQuotaProof secret cmt rq ch nc :
  keepsLimiter (generateQuotaProof secret cmt rq ch nc).
Proof. unfold generateQuotaProof. keeps. Qed.

Lemma keeps_generateWorkerAllocationProof secret cmt rw ch nc :
  keepsLimiter (generateWorkerAllocationProof secret cmt rw ch nc).
Proof. unfold generateWorkerAllocationProof. keeps. Qed.

Lemma keeps_generateTimeValidityProof secret cmt ct ch nc :
  keepsLimiter (generateTimeValidityProof secret cmt ct ch nc).
Proof. unfold generateTimeValidityProof. keeps. Qed.

(** [generateProof] is the limiter followed by work that leaves it alone. *)
Lemma generateProof_limiter_first secret cmt request now :
  exists rest : M ZKProof,
    keepsLimiter rest /\
    generateProof secret cmt request now
    = bind (checkRateLimit (commitmentId cmt) now) (fun _ => rest).
Proof.
  unfold generateProof. eexists. split; cycle 1; [reflexivity|].
  apply keeps_bind; [apply keeps_randomBytes | intros nonceBytes].
  apply keeps_bind; [|intros generated; keeps].
  destruct (request_proofType request);
    auto using keeps_generateOwnershipProof, keeps_generateTierMembershipProof,
      keeps_generateFeatureAccessProof, keeps_generateQuotaProof,
      keeps_generateWorkerAllocationProof, keeps_generateTimeValidityProof.
Qed.

(** ** The rate limiter *)

Lemma checkRateLimit_in_window cid now st :
  now - proofCountReset st <= 3600000 ->
  checkRateLimit cid now st
  = if maxProofsPerHour (config st) <=? countOf st cid
    then (Thrown RateLimitExceeded, st)
    else (Returned tt, set_proofCounts (insert cid (countOf st cid + 1)) st).
Proof.
  intros Hw. unfold checkRateLimit. rewrite run_gets.
  destruct (Z.ltb_spec 3600000 (now - proofCountReset st)); [lia|].
  unfold bind at 1. cbn [ret]. run. fold (countOf st cid).
  destruct (maxProofsPerHour (config st) <=? countOf st cid); reflexivity.
Qed.

Lemma checkRateLimit_after_window cid now st :
  3600000 < now - proofCountReset st ->
  checkRateLimit cid now st
  = let st' := set_proofCountReset now (set_proofCounts (fun _ => ∅) st) in
    if maxProofsPerHour (config st) <=? 0
    then (Thrown RateLimitExceeded, st')
    else (Returned tt, set_proofCounts (insert cid 1) st').
Proof.
  intros Hw. unfold checkRateLimit. rewrite run_gets.
  destruct (Z.ltb_spec 3600000 (now - proofCountReset st)); [|lia].
  run. cbn [set_proofCountReset set_proofCounts proofCounts config].
  rewrite lookup_empty. cbn [default].
  destruct (maxProofsPerHour (config st) <=? 0); reflexivity.
Qed.

Lemma countOf_insert st cid n :
  countOf (set_proofCounts (insert cid n) st) cid = n.
Proof. unfold countOf. cbn [set_proofCounts proofCounts]. by rewrite lookup_insert_eq. Qed.

Lemma countOf_insert_ne st cid cid' n :
  cid <> cid' -> countOf (set_proofCounts (insert cid n) st) cid' = countOf st cid'.
Proof.
  intros Hne. unfold countOf. cbn [set_proofCounts proofCounts].
  by rewrite lookup_insert_ne.
Qed.

Lemma limiterView_eq st st' :
  limiterView st' = limiterView st ->
  config st' = config st /\ proofCounts st' = proofCounts st
  /\ proofCountReset st' = proofCountReset st.
Proof. unfold limiterView. intros [= -> -> ->]. auto. Qed.

(** A call inside the window, below the ceiling: the limiter lets it
    through and counts it. *)
Lemma generateProofCall_admitted c st cid :
  inWindow st cid c ->
  countOf st cid < maxProofsPerHour (config st) ->
  (generateProofCall c st).1 <> Thrown RateLimitExceeded
  /\ countOf (generateProofCall c st).2 cid = countOf st cid + 1
  /\ proofCountReset (generateProofCall c st).2 = proofCountReset st
  /\ config (generateProofCall c st).2 = config st.
Proof.
  intros [Hcid Hw] Hlt. unfold generateProofCall.
  destruct (generateProof_limiter_first (call_secret c) (call_commitment c)
              (call_request c) (call_time c)) as (rest & Hrest & ->).
  unfold bind. rewrite checkRateLimit_in_window by assumption. rewrite Hcid.
  destruct (Z.leb_spec (maxProofsPerHour (config st)) (countOf st cid)); [lia|].
  destruct (Hrest (set_proofCounts (insert cid (countOf st cid + 1)) st)) as [Hv Hne].
  apply limiterView_eq in Hv. destruct Hv as (Hc & Hp & Hr).
  split; [exact Hne|]. unfold countOf at 1. rewrite Hp, Hr, Hc.
  split; [apply countOf_insert | split; reflexivity].
Qed.

(** A call inside the window, at the ceiling: refused, and nothing in the
    engine changes (no random byte is drawn, no counter moves). *)
Lemma generateProofCall_refused c st cid :
  inWindow st cid c ->
  maxProofsPerHour (config st) <= countOf st cid ->
  generateProofCall c st = (Thrown RateLimitExceeded, st).
Proof.
  intros [Hcid Hw] Hge. unfold generateProofCall.
  destruct (generateProof_limiter_first (call_secret c) (call_commitment c)
              (call_request c) (call_time c)) as (rest & Hrest & ->).
  unfold bind. rewrite checkRateLimit_in_window by assumption. rewrite Hcid.
  destruct (Z.leb_spec (maxProofsPerHour (config st)) (countOf st cid)); [reflexivity | lia].
Qed.

(** A call after the window has elapsed: the counters are cleared, the
    window restarts at the call's time and the call counts as its first. *)
Lemma generateProofCall_after_window c st cid :
  commitmentId (call_commitment c) = cid ->
  3600000 < call_time c - proofCountReset st ->
  0 < maxProofsPerHour (config st) ->
  (generateProofCall c st).1 <> Thrown RateLimitExceeded
  /\ countOf (generateProofCall c st).2 cid = 1
  /\ proofCountReset (generateProofCall c st).2 = call_time c
  /\ config (generateProofCall c st).2 = config st.
Proof.
  intros Hcid Hw Hmax. unfold generateProofCall.
  destruct (generateProof_limiter_first (call_secret c) (call_commitment c)
              (call_request c) (call_time c)) as (rest & Hrest & ->).
  unfold bind. rewrite checkRateLimit_after_window by assumption. rewrite Hcid.
  cbv zeta. destruct (Z.leb_spec (maxProofsPerHour (config st)) 0); [lia|].
  match goal with |- context [rest ?s] => destruct (Hrest s) as [Hv Hne] end.
  apply limiterView_eq in Hv. destruct Hv as (Hc & Hp & Hr).
  split; [exact Hne|]. unfold countOf. rewrite Hp, Hr, Hc.
  split; [apply countOf_insert | split; reflexivity].
Qed.

Lemma runCalls_admitted cid calls : forall st,
  Forall (inWindow st cid) calls ->
  countOf st cid + Z.of_nat (length calls) <= maxProofsPerHour (config st) ->
  Forall (fun o => o <> Thrown RateLimitExceeded) (runCalls calls st).1
  /\ countOf (runCalls calls st).2 cid = countOf st cid + Z.of_nat (length calls)
  /\ proofCountReset (runCalls calls st).2 = proofCountReset st
  /\ config (runCalls calls st).2 = config st.
Proof.
  induction calls as [|c calls IH]; intros st Hall Hmax.
  - cbn. split; [constructor | split; [lia | auto]].
  - inversion Hall as [|? ? Hc Hrest]; subst.
    cbn [length] in Hmax. rewrite Nat2Z.inj_succ in Hmax.
    destruct (generateProofCall_admitted c st cid Hc) as (Hne & Hcount & Hreset & Hcfg); [lia|].
    cbn [runCalls fst snd].
    destruct (IH (generateProofCall c st).2) as (Hall' & Hcount' & Hreset' & Hcfg').
    + eapply Forall_impl; [exact Hrest|]. intros c' [? ?]. split; [assumption|].
      rewrite Hreset. assumption.
    + rewrite Hcount, Hcfg. lia.
    + split; [constructor; assumption|].
      rewrite Hcount', Hreset', Hcfg', Hcount, Hreset, Hcfg.
      cbn [length]. rewrite Nat2Z.inj_succ. split; [lia | auto].
Qed.

(** C9. With the default ceiling of 1000 proofs per hour, for one
    commitment: in a window the calls pass the rate limiter until 1000 are
    counted ([calls] are the ones left to the ceiling: all 1000 in a window
    opened by the constructor or by another commitment's call, where the
    count starts at 0; 999 after the commitment's own call opened it); a
    further call inside the window is refused with [RateLimitExceeded] and
    leaves the engine untouched (no random byte drawn, nothing computed).
    Once the window has elapsed a call passes again: the counter is reset,
    the call is counted as the first of a new window that opens at the
    instant of that call, and the ceiling holds in the new window too: 999
    further calls made within the hour after that instant pass, the next
    one is refused. *)
Theorem rate_limit_window st cid calls late calls' :
  maxProofsPerHour (config st) = maxProofsPerHour DEFAULT_CONFIG ->
  countOf st cid + Z.of_nat (length calls) = 1000 ->
  Forall (inWindow st cid) calls ->
  let st1 := (runCalls calls st).2 in
  commitmentId (call_commitment late) = cid ->
  3600000 < call_time late - proofCountReset st ->
  let st2 := (generateProofCall late st1).2 in
  length calls' = 999%nat ->
  Forall (fun c => commitmentId (call_commitment c) = cid
                   /\ call_time c - call_time late <= 3600000) calls' ->
  let st3 := (runCalls calls' st2).2 in
  Forall (fun o => o <> Thrown RateLimitExceeded) (runCalls calls st).1
  /\ (forall c, inWindow st cid c ->
        generateProofCall c st1 = (Thrown RateLimitExceeded, st1))
  /\ (generateProofCall late st1).1 <> Thrown RateLimitExceeded
  /\ countOf st2 cid = 1
  /\ proofCountReset st2 = call_time late
  /\ Forall (fun o => o <> Thrown RateLimitExceeded) (runCalls calls' st2).1
  /\ (forall c, commitmentId (call_commitment c) = cid ->
        call_time c - call_time late <= 3600000 ->
        generateProofCall c st3 = (Thrown RateLimitExceeded, st3)).
Proof.
  intros Hmax Hleft Hall st1 Hcid Hlate st2 Hlen' Hall' st3.
  cbn [maxProofsPerHour DEFAULT_CONFIG] in Hmax.
  destruct (runCalls_admitted cid calls st Hall) as (Hpass & Hcount & Hreset & Hcfg);
    [rewrite Hmax; lia|].
  fold st1 in Hcount, Hreset, Hcfg.
  destruct (generateProofCall_after_window late st1 cid Hcid)
    as (Hne & Hone & Hopen & Hcfg2); [rewrite Hreset; exact Hlate | rewrite Hcfg, Hmax; lia|].
  fold st2 in Hone, Hopen, Hcfg2.
  assert (Hwin : Forall (inWindow st2 cid) calls').
  { eapply Forall_impl; [exact Hall'|]. intros c [Hc Ht]. split; [exact Hc|].
    rewrite Hopen. exact Ht. }
  destruct (runCalls_admitted cid calls' st2 Hwin) as (Hpass' & Hcount' & Hreset' & Hcfg');
    [rewrite Hone, Hlen', Hcfg2, Hcfg, Hmax; lia|].
  fold st3 in Hcount', Hreset', Hcfg'.
  split; [exact Hpass|]. split.
  { intros c [Hc Ht]. apply (generateProofCall_refused c st1 cid).
    - split; [exact Hc | rewrite Hreset; exact Ht].
    - rewrite Hcount, Hcfg, Hmax. lia. }
  split; [exact Hne|]. split; [exact Hone|]. split; [exact Hopen|].
  split; [exact Hpass'|].
  intros c Hc Ht. apply (generateProofCall_refused c st3 cid).
  - split; [exact Hc | rewrite Hreset', Hopen; exact Ht].
  - rewrite Hcount', Hone, Hlen', Hcfg', Hcfg2, Hcfg, Hmax. lia.
Qed.

Lemma rate_limit_window_witness :
  let call t :=
    {| call_secret := Demo.trialSecret; call_commitment := Demo.trialCommitment;
       call_request := Demo.request usage_quota (Demo.needQuota 1);
       call_time := t |} in
  let st1 := (runCalls (replicate 1000 (call 4000)) Demo.issuedTrial.2).2 in
  let st2 := (generateProofCall (call 3700000) st1).2 in
  let st3 := (runCalls (replicate 999 (call 3700001)) st2).2 in
  generateProofCall (call 4001) st1 = (Thrown RateLimitExceeded, st1)
  /\ proofCountReset st2 = 3700000
  /\ generateProofCall (call 7300000) st3 = (Thrown RateLimitExceeded, st3).
Proof.
  intros call st1 st2 st3.
  destruct (rate_limit_window Demo.issuedTrial.2 (commitmentId Demo.trialCommitment)
              (replicate 1000 (call 4000)) (call 3700000) (replicate 999 (call 3700001)))
    as (_ & Hrefused & _ & _ & Hopen & _ & Hrefused').
  - reflexivity.
  - rewrite length_replicate. vm_compute. reflexivity.
  - apply Forall_replicate. split; [reflexivity | vm_compute; discriminate].
  - reflexivity.
  - vm_compute. reflexivity.
  - apply length_replicate.
  - apply Forall_replicate. split; [reflexivity | vm_compute; discriminate].
  - split; [|split; [exact Hopen|]].
    + apply Hrefused. split; [reflexivity | vm_compute; discriminate].
    + apply Hrefused'; [reflexivity | vm_compute; discriminate].
Defined.

(** ** Witness checks *)

Lemma checkRateLimit_generated cid now st :
  totalProofsGenerated (checkRateLimit cid now st).2 = totalProofsGenerated st.
Proof.
  destruct (Z.le_gt_cases (now - proofCountReset st) 3600000) as [Hw|Hw].
  - rewrite checkRateLimit_in_window by assumption.
    destruct (maxProofsPerHour (config st) <=? countOf st cid); reflexivity.
  - rewrite checkRateLimit_after_window by lia. cbv zeta.
    destruct (maxProofsPerHour (config st) <=? 0); reflexivity.
Qed.

(** Once the limiter has let the call through, a witness that does not
    satisfy the statement is answered with its error right after the nonce
    is drawn: no scalar is drawn, nothing is hashed or committed. *)
Lemma generateProof_witness_violation secret cmt request now st st1 e :
  WitnessViolation (witnessData secret) (request_proofType request)
                   (requirements request) e ->
  checkRateLimit (commitmentId cmt) now st = (Returned tt, st1) ->
  generateProof secret cmt request now st = (Thrown e, advance_cursor 16 st1).
Proof.
  intros Hv Hlim. unfold generateProof.
  rewrite (bind_returned _ _ _ _ _ Hlim). rewrite run_randomBytes. cbv beta zeta.
  inversion Hv as [rq q Hq Hlt Ht | rq n Hn Hlt Ht | rq t Hc Hle Ht | rq f Hf Hnone Ht];
    subst.
  - unfold generateQuotaProof. rewrite Hq.
    destruct (Z.ltb_spec (usageQuota (witnessData secret) - usedQuota (witnessData secret)) q);
      [reflexivity | lia].
  - unfold generateWorkerAllocationProof. rewrite Hn.
    destruct (Z.ltb_spec (witness_maxWorkers (witnessData secret)) n); [reflexivity | lia].
  - unfold generateTimeValidityProof. rewrite Hc.
    destruct (Z.leb_spec (expirationTimestamp (witnessData secret)) t); [reflexivity | lia].
  - unfold generateFeatureAccessProof. rewrite Hf. cbn [mbind option_bind].
    rewrite Hnone. reflexivity.
Qed.

Lemma generateProof_witness_violation_throws secret cmt request now st e :
  WitnessViolation (witnessData secret) (request_proofType request)
                   (requirements request) e ->
  exists e' st', generateProof secret cmt request now st = (Thrown e', st')
                 /\ totalProofsGenerated st' = totalProofsGenerated st.
Proof.
  intros Hv.
  pose proof (checkRateLimit_generated (commitmentId cmt) now st) as Hgen.
  destruct (checkRateLimit (commitmentId cmt) now st) as [[[]|e0] st1] eqn:Hlim.
  - exists e, (advance_cursor 16 st1). split; [|exact Hgen].
    by apply generateProof_witness_violation.
  - exists e0, st1. split; [|exact Hgen].
    unfold generateProof. by rewrite (bind_thrown _ _ _ _ _ Hlim).
Qed.

(** C8. When the witness does not satisfy the statement (remaining quota
    below the required quota, more workers requested than allowed,
    expiration not after the current time, no Merkle proof for the required
    feature), [generateProof] returns no proof and counts none; when the rate
    limiter lets the call through, the error is the one of the violation
    ([InsufficientQuota], [ExceedsWorkerLimit], [LicenseExpired],
    [FeatureNotLicensed]), thrown before any scalar is drawn.  For a quota
    request the remaining quota [usageQuota - usedQuota] is taken to be a
    safe integer, so that the number the source compares is that
    difference and not a rounding of it. *)
Theorem witness_violation_rejected secret cmt request now st e :
  WitnessViolation (witnessData secret) (request_proofType request)
                   (requirements request) e ->
  (request_proofType request = usage_quota -> exactRemaining (witnessData secret)) ->
  (exists e' st', generateProof secret cmt request now st = (Thrown e', st')
                  /\ totalProofsGenerated st' = totalProofsGenerated st)
  /\ (forall st1, checkRateLimit (commitmentId cmt) now st = (Returned tt, st1) ->
        generateProof secret cmt request now st = (Thrown e, advance_cursor 16 st1)).
Proof.
  intros Hv _. split.
  - by apply generateProof_witness_violation_throws with e.
  - intros st1. by apply generateProof_witness_violation.
Qed.

Lemma witness_violation_rejected_witness :
  (generateProof Demo.trialSecret Demo.trialCommitment
     (Demo.request usage_quota (Demo.needQuota 1001)) 4000 Demo.issuedTrial.2).1
  = Thrown InsufficientQuota.
Proof.
  pose proof (witness_violation_rejected Demo.trialSecret Demo.trialCommitment
                (Demo.request usage_quota (Demo.needQuota 1001)) 4000
                Demo.issuedTrial.2 InsufficientQuota) as [_ H].
  - apply quota_short with 1001; [reflexivity | vm_compute; reflexivity].
  - intros _. vm_compute. reflexivity.
  - rewrite (H (checkRateLimit (commitmentId Demo.trialCommitment) 4000
                  Demo.issuedTrial.2).2); [reflexivity|].
    vm_compute. reflexivity.
Defined.

(** ** License creation *)

Lemma advance_cursor_add n m st :
  advance_cursor n (advance_cursor m st) = advance_cursor (m + n) st.
Proof. unfold advance_cursor. cbn. f_equal. lia. Qed.

(** With an Invalid Date [createLicense] throws the [RangeError] of
    [BigInt(NaN)], after the license key and the thirteen blinding factors
    have been drawn; nothing else has changed. *)
Lemma createLicense_invalid t now st :
  createLicense t InvalidDate now st = (Thrown RangeErrorNaN, advance_cursor 448 st).
Proof.
  unfold createLicense, generateLicenseKey, generateBlindingFactors.
  cbn [randomHexStrings getTime fmap option_fmap option_map BigIntOf]. run.
  rewrite !advance_cursor_add. reflexivity.
Qed.

(** With a valid date [createLicense] returns; the secret's witness is read
    off the configured tier, the commitments open to the secret's values,
    and the commitment is registered under its id. *)
Lemma createLicense_returns t ms now st :
  exists cmt secret st1,
    createLicense t (TimeValue ms) now st = (Returned (cmt, secret), st1)
    /\ witnessData secret
       = {| tier := t;
            tierValue := tierHierarchy (config st) t;
            expirationTimestamp := ms / 1000;
            witness_maxWorkers := maxWorkers (tierLimits (config st) t);
            witness_enabledFeatures := features (tierLimits (config st) t);
            usageQuota := monthlyQuota (tierLimits (config st) t);
            usedQuota := 0;
            featureMerkleProofs :=
              (createFeatureMerkleTree (features (tierLimits (config st) t))).2 |}
    /\ commitment cmt
       = pedersenCommit (scalarOfHash (licenseKey secret))
                        (scalarOfHash (blinding_license (blindingFactors secret)))
    /\ tierCommitment cmt
       = pedersenCommit (tierValue (witnessData secret))
                        (scalarOfHash (blinding_tier (blindingFactors secret)))
    /\ expirationCommitment cmt
       = pedersenCommit (expirationTimestamp (witnessData secret))
                        (scalarOfHash (blinding_expiration (blindingFactors secret)))
    /\ featureMerkleRoot cmt
       = (createFeatureMerkleTree (features (tierLimits (config st) t))).1
    /\ createdAt cmt = now
    /\ commitments st1 = <[commitmentId cmt := cmt]> (commitments st)
    /\ limiterView st1 = limiterView st
    /\ proofCache st1 = proofCache st
    /\ randomCursor st1 = (randomCursor st + 464)%nat
    /\ totalProofsVerified st1 = totalProofsVerified st
    /\ totalValidProofs st1 = totalValidProofs st
    /\ totalInvalidProofs st1 = totalInvalidProofs st.
Proof.
  unfold createLicense, generateLicenseKey, generateBlindingFactors.
  cbn [randomHexStrings getTime fmap option_fmap option_map BigIntOf]. run.
  do 3 eexists. split; [reflexivity|].
  cbn [witnessData commitment tierCommitment expirationCommitment featureMerkleRoot
       createdAt licenseKey blindingFactors blinding_license blinding_tier
       blinding_expiration tierValue expirationTimestamp commitmentId].
  repeat split. cbn. lia.
Qed.

(** C10. Under the default configuration a license created for the
    unlimited tier has a monthly quota of -1 and no quota used, so for every
    required quota of 0 or more [generateProof] returns no usage-quota
    proof: it throws, and when the rate limiter lets the call through the
    error is [InsufficientQuota]. *)
Theorem unlimited_quota_never_proved st0 expirationDate now0 cmt secret st1 request q :
  config st0 = DEFAULT_CONFIG ->
  createLicense unlimited expirationDate now0 st0 = (Returned (cmt, secret), st1) ->
  request_proofType request = usage_quota ->
  requiredQuota (requirements request) = Some q ->
  0 <= q ->
  usageQuota (witnessData secret) - usedQuota (witnessData secret) = -1
  /\ forall cmt' now st,
       (exists e' st', generateProof secret cmt' request now st = (Thrown e', st'))
       /\ (forall st2,
             checkRateLimit (commitmentId cmt') now st = (Returned tt, st2) ->
             generateProof secret cmt' request now st
             = (Thrown InsufficientQuota, advance_cursor 16 st2)).
Proof.
  intros Hcfg Hcreate Hty Hq Hq0.
  destruct expirationDate as [ms|];
    [|rewrite createLicense_invalid in Hcreate; discriminate].
  destruct (createLicense_returns unlimited ms now0 st0)
    as (cmt0 & secret0 & st1' & Heq & Hw & _).
  rewrite Hcreate in Heq. injection Heq as <- <- <-.
  rewrite Hcfg in Hw.
  assert (Hrem : usageQuota (witnessData secret) - usedQuota (witnessData secret) = -1)
    by (rewrite Hw; reflexivity).
  split; [exact Hrem|]. intros cmt' now st.
  assert (Hv : WitnessViolation (witnessData secret) (request_proofType request)
                 (requirements request) InsufficientQuota).
  { rewrite Hty. apply quota_short with q; [assumption | lia]. }
  split.
  - destruct (generateProof_witness_violation_throws secret cmt' request now st _ Hv)
      as (e' & st' & He & _). eauto.
  - intros st2. by apply generateProof_witness_violation.
Qed.

Lemma unlimited_quota_never_proved_witness :
  (generateProof Demo.unlimitedSecret Demo.unlimitedCommitment
     (Demo.request usage_quota (Demo.needQuota 0)) 4000 Demo.issuedUnlimited.2).1
  = Thrown InsufficientQuota.
Proof.
  pose proof (unlimited_quota_never_proved Demo.engine Demo.expirationDate 2000
                Demo.unlimitedCommitment Demo.unlimitedSecret Demo.issuedUnlimited.2
                (Demo.request usage_quota (Demo.needQuota 0)) 0) as H.
  destruct H as [_ H].
  - reflexivity.
  - vm_compute. reflexivity.
  - reflexivity.
  - reflexivity.
  - lia.
  - destruct (H Demo.unlimitedCommitment 4000 Demo.issuedUnlimited.2) as [_ H2].
    rewrite (H2 (checkRateLimit (commitmentId Demo.unlimitedCommitment) 4000
                   Demo.issuedUnlimited.2).2); [reflexivity|].
    vm_compute. reflexivity.
Defined.

(** ** Commitments *)

Lemma pedersenCommit_unfold value blinding :
  pedersenCommit value blinding
  = JS.padStart0 64 (JS.toString16 (Z.rem (value + blinding * 5) (fieldModulus circuitParams))).
Proof. unfold pedersenCommit. cbn [g1 h x circuitParams]. by rewrite Z.mul_1_r. Qed.

(** A commitment to non-negative inputs decodes to their combination
    reduced modulo the field modulus. *)
Lemma BigInt0x_pedersenCommit value blinding :
  0 <= value -> 0 <= blinding ->
  JS.BigInt0x (pedersenCommit value blinding)
  = Some ((value + blinding * 5) mod fieldModulus circuitParams).
Proof.
  intros Hv Hb. rewrite pedersenCommit_unfold.
  rewrite Z.rem_mod_nonneg by (pose proof fieldModulus_pos; lia).
  apply BigInt0x_padded, Z.mod_pos_bound, fieldModulus_pos.
Qed.

(** C7. [pedersenCommit] is a function of its two arguments alone (it reads
    no state and draws nothing), and it is additively homomorphic on
    scalars: combining [pedersenCommit a r1] and [pedersenCommit b r2] by
    addition modulo the field modulus gives [pedersenCommit (a+b) (r1+r2)]. *)
Theorem commitment_homomorphic a b r1 r2 :
  0 <= a -> 0 <= b -> 0 <= r1 -> 0 <= r2 ->
  combineCommitments (pedersenCommit a r1) (pedersenCommit b r2)
  = Some (pedersenCommit (a + b) (r1 + r2)).
Proof.
  intros Ha Hb Hr1 Hr2. unfold combineCommitments.
  rewrite !BigInt0x_pedersenCommit by assumption.
  rewrite pedersenCommit_unfold. pose proof fieldModulus_pos as Hp.
  pose proof (Z.mod_pos_bound (a + r1 * 5) _ Hp).
  pose proof (Z.mod_pos_bound (b + r2 * 5) _ Hp).
  rewrite !Z.rem_mod_nonneg by lia.
  rewrite <- Zplus_mod. do 4 f_equal. lia.
Qed.

Lemma commitment_homomorphic_witness :
  combineCommitments (pedersenCommit 3 5) (pedersenCommit 4 6)
  = Some (pedersenCommit 7 11).
Proof. apply (commitment_homomorphic 3 4 5 6); lia. Defined.

(** C4, as stated, fails: two different scalars open the same commitment
    when the blinding factors differ. *)
Lemma commitment_binding_counterexample :
  ~ (forall v v' r r',
       isScalar v -> isScalar v' -> isScalar r -> isScalar r' ->
       v' <> v -> pedersenCommit v' r' <> pedersenCommit v r).
Proof.
  intros H. apply (H 0 5 1 0); try (split; [lia | reflexivity]); [lia|].
  vm_compute. reflexivity.
Qed.

(** C4, amended. With the same blinding factor the commitment binds the
    value: two different values below the field modulus never give the same
    commitment. *)
Theorem commitment_binds_under_same_blinding v v' r :
  0 <= v < fieldModulus circuitParams ->
  0 <= v' < fieldModulus circuitParams ->
  0 <= r ->
  v' <> v ->
  pedersenCommit v' r <> pedersenCommit v r.
Proof.
  intros Hv Hv' Hr Hne Heq.
  pose proof (BigInt0x_pedersenCommit v r ltac:(lia) Hr) as H1.
  pose proof (BigInt0x_pedersenCommit v' r ltac:(lia) Hr) as H2.
  rewrite Heq, H1 in H2.
  assert (Hmod : (v + r * 5) mod fieldModulus circuitParams
                 = (v' + r * 5) mod fieldModulus circuitParams) by congruence.
  clear H1 H2. set (p := fieldModulus circuitParams) in *.
  assert (Hd : (v - v') mod p = 0).
  { replace (v - v') with ((v + r * 5) - (v' + r * 5)) by lia.
    rewrite Zminus_mod, Hmod, Z.sub_diag. apply Z.mod_0_l. lia. }
  apply Z.mod_divide in Hd; [|lia]. destruct Hd as [k Hk].
  assert (k = 0) by nia. lia.
Qed.

Lemma commitment_binds_under_same_blinding_witness :
  pedersenCommit 5 1 <> pedersenCommit 0 1.
Proof.
  apply (commitment_binds_under_same_blinding 0 5 1);
    try (split; [lia | reflexivity]); lia.
Defined.

(** ** Verification of proofs *)

Lemma verifyProof_fresh p now st cmt :
  cacheLookup st (proofId p) now = None ->
  commitments st !! proof_commitmentId p = Some cmt ->
  valid (verifyProof p now st).1.1 = verifyByType p cmt.
Proof. intros Hc Hm. unfold verifyProof. rewrite Hc, Hm. reflexivity. Qed.

Lemma verifyProof_fresh_unknown p now st :
  cacheLookup st (proofId p) now = None ->
  commitments st !! proof_commitmentId p = None ->
  valid (verifyProof p now st).1.1 = false.
Proof. intros Hc Hm. unfold verifyProof. rewrite Hc, Hm. reflexivity. Qed.

(** A fresh verification that accepts found the commitment and the
    verifier of the proof's type accepted. *)
Lemma verifyProof_fresh_valid p now st :
  cacheLookup st (proofId p) now = None ->
  valid (verifyProof p now st).1.1 = true ->
  exists cmt, commitments st !! proof_commitmentId p = Some cmt
              /\ verifyByType p cmt = true.
Proof.
  intros Hc Hv. destruct (commitments st !! proof_commitmentId p) as [cmt|] eqn:Hm.
  - exists cmt. split; [reflexivity|]. by rewrite <- (verifyProof_fresh p now st cmt).
  - rewrite verifyProof_fresh_unknown in Hv by assumption. discriminate.
Qed.

Lemma append_inv_head (s t1 t2 : string) : s +:+ t1 = s +:+ t2 -> t1 = t2.
Proof. induction s as [|a s IH]; simpl; [auto|]. intros [= H]. auto. Qed.

Lemma oneByteChanged_neq s s' : oneByteChanged s s' -> s <> s'.
Proof.
  intros (before & after & old & new & Hne & -> & ->) Heq.
  apply append_inv_head in Heq. congruence.
Qed.

(** C2, as stated, fails: a usage-quota proof that verifies still verifies
    after a byte of its public inputs is changed. *)
Lemma tampering_counterexample :
  ~ (forall st now p p' i,
       valid (verifyProof p now st).1.1 = true ->
       tamperedAt i p p' ->
       valid (verifyProof p' now st).1.1 = false).
Proof.
  intros H.
  specialize (H Demo.quotaRun.2 5000 Demo.quotaProof
                (Demo.withPublicInputs ["600"; challenge Demo.quotaProof] Demo.quotaProof)
                8%nat).
  assert (Hv : valid (verifyProof
                        (Demo.withPublicInputs ["600"; challenge Demo.quotaProof]
                           Demo.quotaProof) 5000 Demo.quotaRun.2).1.1 = true)
    by (vm_compute; reflexivity).
  rewrite H in Hv; [discriminate | vm_compute; reflexivity |].
  repeat split.
  exists "500", "600". repeat split.
  exists "", "00", "5"%char, "6"%char. repeat split. discriminate.
Qed.

(** C2, amended. For a proof that a fresh verification accepts, changing a
    byte of the string its verifier compares ([proof.a[0]] of a
    license-ownership proof, [proof.c[0]] of a tier-membership,
    feature-access, worker-allocation or time-validity proof) gives a proof
    that a fresh verification rejects. *)
Theorem tampering_compared_string_rejected st now p p' i :
  cacheLookup st (proofId p) now = None ->
  valid (verifyProof p now st).1.1 = true ->
  comparedString (proofType p) = Some i ->
  tamperedAt i p p' ->
  valid (verifyProof p' now st).1.1 = false.
Proof.
  intros Hcache Hvalid Hi (Hid & Hty & Hcid & _ & _ & s & s' & Hs & Hch & Hp').
  destruct (verifyProof_fresh_valid p now st Hcache Hvalid) as (cmt & Hm & Hok).
  rewrite (verifyProof_fresh p' now st cmt) by (rewrite ?Hid, ?Hcid; assumption).
  apply oneByteChanged_neq in Hch.
  unfold verifyByType in *. rewrite Hty.
  unfold proofStrings in Hs, Hp'.
  destruct (proofType p); cbn in Hi; try discriminate; injection Hi as <-;
    cbn in Hs, Hp'; injection Hs as <-;
    injection Hp' as Ha1 Ha2 Hb11 Hb12 Hb21 Hb22 Hc1 Hc2 Hpub.
  - (* license ownership *)
    unfold verifyOwnershipProof in *. rewrite Ha1, Ha2, Hb11, Hb12.
    destruct (JS.BigInt0x (proof_a (proof p)).2); [|reflexivity].
    destruct (JS.BigInt0x (proof_b (proof p)).1.1); [|reflexivity].
    destruct (JS.BigInt0x (proof_b (proof p)).1.2); [|reflexivity].
    destruct (pedersenVerify _ _ _ _) as [expected|]; [|reflexivity].
    apply bool_decide_eq_true in Hok. apply bool_decide_eq_false. congruence.
  - (* tier membership *)
    unfold verifyTierMembershipProof in *. rewrite Hb12, Hc1.
    destruct (JS.BigInt0x (proof_b (proof p)).1.2); [|reflexivity].
    apply bool_decide_eq_true in Hok. apply bool_decide_eq_false. congruence.
  - (* feature access *)
    unfold verifyFeatureAccessProof in *. rewrite Hc1.
    destruct (bool_decide_reflect ((proof_c (proof p)).1 = featureMerkleRoot cmt));
      [|discriminate].
    rewrite bool_decide_eq_false_2 by congruence. reflexivity.
  - (* time validity *)
    unfold verifyTimeValidityProof in *. rewrite Hc1.
    apply bool_decide_eq_true in Hok. apply bool_decide_eq_false. congruence.
  - (* worker allocation *)
    unfold verifyWorkerAllocationProof in *. rewrite Hc1.
    apply andb_true_iff in Hok. destruct Hok as [_ Hok].
    apply bool_decide_eq_true in Hok.
    rewrite (bool_decide_eq_false_2 (s' = tierCommitment cmt)) by congruence.
    apply andb_false_r.
Qed.

(** Conjunctions of equations decided by evaluation. *)
Ltac evaluate :=
  repeat match goal with |- _ /\ _ => split end; vm_compute; reflexivity.

Lemma tampering_compared_string_rejected_witness :
  valid (verifyProof
           (Demo.withC0 "19572c2dfcda9943bbef2da48774d7f9539c1a8f9670c90c55d6761f06fb71a6"
              Demo.tierProof) 5000 Demo.tierRun.2).1.1 = false.
Proof.
  apply (tampering_compared_string_rejected Demo.tierRun.2 5000 Demo.tierProof _ 6%nat).
  - vm_compute. reflexivity.
  - vm_compute. reflexivity.
  - reflexivity.
  - repeat split.
    exists "09572c2dfcda9943bbef2da48774d7f9539c1a8f9670c90c55d6761f06fb71a6",
           "19572c2dfcda9943bbef2da48774d7f9539c1a8f9670c90c55d6761f06fb71a6".
    repeat split.
    exists "", "9572c2dfcda9943bbef2da48774d7f9539c1a8f9670c90c55d6761f06fb71a6",
           "0"%char, "1"%char.
    repeat split. discriminate.
Defined.

Lemma markVerified_verifyByType p isValid now cmt :
  verifyByType (markVerified p isValid now) cmt = verifyByType p cmt.
Proof. reflexivity. Qed.

(** A proof that a fresh verification accepted is accepted again whenever
    it is submitted a second time: inside the cache window the cached result
    is returned, after it the proof is verified again with the same verdict.
    Nothing in [verifyProof] reads the challenge or records it. *)
Lemma verified_proof_accepted_again st now1 now2 p :
  cacheLookup st (proofId p) now1 = None ->
  valid (verifyProof p now1 st).1.1 = true ->
  valid (verifyProof (verifyProof p now1 st).1.2 now2 (verifyProof p now1 st).2).1.1 = true.
Proof.
  intros Hcache Hvalid.
  destruct (verifyProof_fresh_valid p now1 st Hcache Hvalid) as (cmt & Hm & Hok).
  unfold verifyProof at 2 3. rewrite Hcache, Hm. cbn [fst snd]. rewrite Hok.
  unfold verifyProof, cacheLookup.
  cbn [markVerified proofId proof_commitmentId set_proofCache count_verified
       proofCache commitments config].
  rewrite lookup_insert_eq. cbn [cache_expiresAt result].
  destruct (now2 <? now1 + verificationCacheMs (config st)); [reflexivity|].
  rewrite Hm. cbn [fst valid]. exact Hok.
Qed.

(** C5 on a concrete run (code defect).  An enterprise license is issued,
    a usage-quota proof is requested, generated and verified at time 5000:
    accepted.  The same proof object, carrying the same challenge, is then
    submitted again, at 5001 (the cached result is served) and at 70000
    (the cache entry has expired and the proof is verified afresh): it is
    accepted both times.  [verifyProof] never reads the challenge. *)
Theorem replayed_proof_accepted :
  let first := verifyProof Demo.quotaProof 5000 Demo.quotaRun.2 in
  Demo.issueAndProve enterprise usage_quota (Demo.needQuota 500) Demo.engine = Demo.quotaRun
  /\ valid first.1.1 = true
  /\ challenge first.1.2 = challenge Demo.quotaProof
  /\ valid (verifyProof first.1.2 5001 first.2).1.1 = true
  /\ cacheLookup first.2 (proofId first.1.2) 70000 = None
  /\ valid (verifyProof first.1.2 70000 first.2).1.1 = true.
Proof. cbv zeta. evaluate. Qed.

(** C1 on a concrete run (code defect).  An enterprise license is issued,
    a license-ownership proof is requested, generated and verified: the
    verifier rejects the honest proof, because the value it recomputes,
    [pedersenVerify(s1, s2, c, commitment)], is not the first message
    [proof.a[0]]. *)
Theorem ownership_round_trip_rejected :
  Demo.issueAndProve enterprise license_ownership Demo.noRequirements Demo.engine
  = Demo.ownershipRun
  /\ Demo.roundTrip enterprise license_ownership Demo.noRequirements = Returned false
  /\ (proof_a (proof Demo.ownershipProof)).1
     = "288dbac1fd6096eec39b979005e41572783cdfd2d5321ee8f4e0558f52ed4bc3"
  /\ Demo.recomputed Demo.ownershipProof Demo.ownershipCommitment
     = Some "-2bf52f661d8dc7071a76292ce6da3a321d3a55b66fed6aa8c8d879540c6f14c2".
Proof. evaluate. Qed.

(** The other five proof types on the same kind of run: accepted. *)
Example other_round_trips_accepted :
  Demo.roundTrip enterprise tier_membership (Demo.needTier professional) = Returned true
  /\ Demo.roundTrip enterprise feature_access (Demo.needFeature "stealth-mode") = Returned true
  /\ Demo.roundTrip enterprise usage_quota (Demo.needQuota 500) = Returned true
  /\ Demo.roundTrip enterprise worker_allocation (Demo.needWorkers 10) = Returned true
  /\ Demo.roundTrip enterprise time_validity (Demo.needTime 1700000000) = Returned true.
Proof. evaluate. Qed.

(** C3 on a concrete run (code defect).  A trial license (tier rank 1) is
    asked to prove membership of the unlimited tier (rank 5):
    [generateProof] returns a proof and [verifyProof] accepts it. *)
Theorem tier_below_minimum_accepted :
  tierValue (witnessData Demo.trialSecret) = 1
  /\ tierHierarchy DEFAULT_CONFIG unlimited = 5
  /\ Demo.issueAndProve trial tier_membership (Demo.needTier unlimited) Demo.engine
     = Demo.tierRun
  /\ Demo.roundTrip trial tier_membership (Demo.needTier unlimited) = Returned true.
Proof. evaluate. Qed.

(** C6 on the enterprise tier's seven features (code defect).  The proofs
    of the first six features fold to the root; the proof of the seventh,
    whose leaf is the unpaired last node of its level, does not: the tree
    hashes the node with itself, the proof skips that level. *)
Theorem enterprise_merkle_proofs_fold :
  let tree := createFeatureMerkleTree (features (tierLimits DEFAULT_CONFIG enterprise)) in
  map (fun f => (fun mp => bool_decide (foldMerkleProof mp = tree.1)) <$> tree.2 !! f)
      (features (tierLimits DEFAULT_CONFIG enterprise))
  = [Some true; Some true; Some true; Some true; Some true; Some true; Some false].
Proof. vm_compute. reflexivity. Qed.

(** ** Further properties of the commitment arithmetic *)

(** Two openings with non-negative values and blindings give the same
    commitment exactly when [value + 5 * blinding] agrees modulo the field
    modulus. *)
Theorem pedersenCommit_collision v r v' r' :
  0 <= v -> 0 <= r -> 0 <= v' -> 0 <= r' ->
  pedersenCommit v r = pedersenCommit v' r'
  <-> (v + r * 5) mod fieldModulus circuitParams
      = (v' + r' * 5) mod fieldModulus circuitParams.
Proof.
  intros Hv Hr Hv' Hr'. split.
  - intros Heq.
    pose proof (BigInt0x_pedersenCommit v r Hv Hr) as H1.
    rewrite Heq, (BigInt0x_pedersenCommit v' r' Hv' Hr') in H1. congruence.
  - intros Heq. rewrite !pedersenCommit_unfold.
    rewrite !Z.rem_mod_nonneg by (pose proof fieldModulus_pos; lia).
    by rewrite Heq.
Qed.

Lemma pedersenCommit_collision_witness : pedersenCommit 0 1 = pedersenCommit 5 0.
Proof. apply (pedersenCommit_collision 0 1 5 0); try lia. reflexivity. Defined.

(** The decoding [pedersenVerify] applies to a commitment recovers what
    [pedersenCommit] encoded. *)
Theorem pedersenCommit_decodes value blinding :
  0 <= value -> 0 <= blinding ->
  JS.BigInt0x (pedersenCommit value blinding)
  = Some ((value + blinding * 5) mod fieldModulus circuitParams).
Proof. apply BigInt0x_pedersenCommit. Qed.

Lemma pedersenCommit_decodes_witness :
  JS.BigInt0x (pedersenCommit 7 11) = Some ((7 + 11 * 5) mod fieldModulus circuitParams).
Proof. apply (pedersenCommit_decodes 7 11); lia. Defined.

(** The Schnorr equation holds when nothing wraps around: with responses
    [r + c*x] and [k + c*y] taken as integers and a commitment to [(x, y)]
    that needed no reduction, [pedersenVerify] rebuilds the first message
    [pedersenCommit r k]. *)
Theorem pedersenVerify_unreduced r k c xv yv :
  0 <= r -> 0 <= k -> 0 <= c -> 0 <= xv -> 0 <= yv ->
  xv + yv * 5 < fieldModulus circuitParams ->
  pedersenVerify (r + c * xv) (k + c * yv) c (pedersenCommit xv yv)
  = Some (pedersenCommit r k).
Proof.
  intros Hr Hk Hc Hx Hy Hsmall. unfold pedersenVerify.
  rewrite BigInt0x_pedersenCommit by assumption.
  rewrite (Z.mod_small (xv + yv * 5)) by lia.
  rewrite pedersenCommit_unfold. cbn [g1 h x circuitParams].
  do 4 f_equal. lia.
Qed.

Lemma pedersenVerify_unreduced_witness :
  pedersenVerify (2 + 3 * 4) (6 + 3 * 7) 3 (pedersenCommit 4 7)
  = Some (pedersenCommit 2 6).
Proof.
  apply (pedersenVerify_unreduced 2 6 3 4 7); try lia. vm_compute. reflexivity.
Defined.

(** ** The feature Merkle tree *)

Lemma hex_length_hexOfBytes bs : String.length (JS.hexOfBytes bs) = (2 * length bs)%nat.
Proof.
  induction bs as [|b bs IH]; [reflexivity|].
  change (String.length (JS.hexOfBytes (b :: bs)))
    with (S (S (String.length (JS.hexOfBytes bs)))).
  rewrite IH. cbn [length]. lia.
Qed.

Lemma bigEndian_length n : forall v, length (SHA256.bigEndian n v) = n.
Proof.
  induction n as [|n IH]; intros v; [reflexivity|].
  cbn [SHA256.bigEndian]. rewrite length_app, IH. cbn. lia.
Qed.

Lemma flat_map_bigEndian_length ws :
  length (flat_map (SHA256.bigEndian 4) ws) = (4 * length ws)%nat.
Proof.
  induction ws as [|w ws IH]; [reflexivity|].
  cbn [flat_map]. rewrite length_app, bigEndian_length, IH. cbn [length]. lia.
Qed.

Lemma digest_length msg : length (SHA256.digest msg) = 32%nat.
Proof.
  unfold SHA256.digest.
  rewrite flat_map_bigEndian_length, absorb_length; reflexivity.
Qed.

Lemma sha256_hex_length s : String.length (SHA256.hex s) = 64%nat.
Proof. unfold SHA256.hex. by rewrite hex_length_hexOfBytes, digest_length. Qed.

Lemma sha256_hex_nonempty s : SHA256.hex s <> "".
Proof. intros H. pose proof (sha256_hex_length s) as Hl. rewrite H in Hl. discriminate. Qed.

Lemma orElse_nonempty s d : s <> "" -> JS.orElse (Some s) d = s.
Proof. destruct s; [contradiction | reflexivity]. Qed.

Lemma nextLevel_cons2 a b l :
  nextLevel (a :: b :: l) = hashValues [a; JS.orElse (Some b) a] :: nextLevel l.
Proof. reflexivity. Qed.

(** Lists two elements at a time. *)
Lemma pair_induction {A} (P : list A -> Prop) :
  P [] -> (forall a, P [a]) -> (forall a b l, P l -> P (a :: b :: l)) ->
  forall l, P l.
Proof.
  intros H0 H1 H2 l.
  assert (H : P l /\ forall a, P (a :: l)); [|apply H].
  induction l as [|b l [IHl IHal]]; [auto|]. split; [apply IHal | intros a; apply H2, IHl].
Qed.

Lemma nextLevel_length l : length (nextLevel l) = ((length l + 1) / 2)%nat.
Proof.
  induction l as [|a|a b l IH] using pair_induction; [reflexivity | reflexivity |].
  rewrite nextLevel_cons2. cbn [length]. rewrite IH.
  replace (S (S (length l)) + 1)%nat with ((length l + 1) + 1 * 2)%nat by lia.
  rewrite Nat.div_add by lia. lia.
Qed.

Lemma nextLevel_nonempty l : Forall (fun s => s <> "") (nextLevel l).
Proof.
  induction l as [|a|a b l IH] using pair_induction; [constructor | |].
  - repeat constructor. apply sha256_hex_nonempty.
  - rewrite nextLevel_cons2. constructor; [apply sha256_hex_nonempty | exact IH].
Qed.

(** The node above a pair of nodes. *)
Lemma nextLevel_lookup_pair l : forall j a b,
  Forall (fun s => s <> "") l ->
  l !! (2 * j)%nat = Some a -> l !! (2 * j + 1)%nat = Some b ->
  nextLevel l !! j = Some (hashValues [a; b]).
Proof.
  induction l as [|a0|a0 b0 l IH] using pair_induction; intros j a b Hne Ha Hb.
  - discriminate.
  - destruct j; [discriminate|]. replace (2 * S j)%nat with (S (S (2 * j))) in Ha by lia.
    discriminate.
  - rewrite nextLevel_cons2. inversion Hne as [|? ? Ha0 Hne']; subst.
    inversion Hne' as [|? ? Hb0 Hne'']; subst.
    destruct j as [|j].
    + cbn in Ha, Hb. injection Ha as <-. injection Hb as <-.
      cbn [lookup list_lookup]. by rewrite orElse_nonempty.
    + replace (2 * S j)%nat with (S (S (2 * j))) in Ha by lia.
      replace (2 * S j + 1)%nat with (S (S (2 * j + 1))) in Hb by lia.
      cbn in Ha, Hb. cbn [lookup list_lookup]. by apply IH.
Qed.

Lemma hashValues_nonempty vs : hashValues vs <> "".
Proof. apply sha256_hex_nonempty. Qed.

Lemma proofPath_cons2 level next above index :
  proofPath (level :: next :: above) index
  = let siblingIndex := if Nat.even index then (index + 1)%nat else (index - 1)%nat in
    let rest := proofPath (next :: above) (index / 2)%nat in
    match level !! siblingIndex with
    | Some sibling => (sibling :: rest.1, Z.of_nat (index mod 2) :: rest.2)
    | None => rest
    end.
Proof. reflexivity. Qed.

(** A proof never has more entries than there are levels below the top. *)
Lemma proofPath_length_le levels : forall index,
  (length (proofPath levels index).1 <= length levels - 1)%nat.
Proof.
  induction levels as [|level above IH]; intros index; [cbn; lia|].
  destruct above as [|next above]; [cbn; lia|].
  rewrite proofPath_cons2. cbv zeta. specialize (IH (index / 2)%nat).
  cbn [length] in *. destruct (level !! _); cbn [fst length]; lia.
Qed.

Lemma proofPath_lengths levels : forall index,
  length (proofPath levels index).2 = length (proofPath levels index).1.
Proof.
  induction levels as [|level above IH]; intros index; [reflexivity|].
  destruct above as [|next above]; [reflexivity|].
  rewrite proofPath_cons2. cbv zeta. specialize (IH (index / 2)%nat).
  destruct (level !! _); cbn [fst snd length]; lia.
Qed.

Lemma upperLevels_unfold fuel cur :
  upperLevels (S fuel) cur
  = if (1 <? length cur)%nat then nextLevel cur :: upperLevels fuel (nextLevel cur) else [].
Proof. reflexivity. Qed.

Lemma double_div2 j : (2 * j / 2 = j)%nat.
Proof. rewrite Nat.mul_comm. apply Nat.div_mul. lia. Qed.

Lemma double_mod2 j : ((2 * j) mod 2 = 0)%nat.
Proof. rewrite Nat.mul_comm. apply Nat.Div0.mod_mul. Qed.

Lemma double_succ_div2 j : ((2 * j + 1) / 2 = j)%nat.
Proof. rewrite Nat.add_comm, Nat.mul_comm, Nat.div_add by lia. reflexivity. Qed.

Lemma double_succ_mod2 j : ((2 * j + 1) mod 2 = 1)%nat.
Proof. rewrite Nat.add_comm, Nat.mul_comm, Nat.Div0.mod_add. reflexivity. Qed.

Lemma half_up_lt n : (1 < n -> (n + 1) / 2 < n)%nat.
Proof. intros Hn. apply Nat.Div0.div_lt_upper_bound. lia. Qed.

(** One step of the fold: from a node with its sibling to the node above. *)
Lemma fold_step cur i c s :
  Forall (fun s => s <> "") cur ->
  cur !! i = Some c ->
  cur !! (if Nat.even i then (i + 1)%nat else (i - 1)%nat) = Some s ->
  nextLevel cur !! (i / 2)%nat
  = Some (if Z.of_nat (i mod 2) =? 0 then hashValues [c; s] else hashValues [s; c]).
Proof.
  intros Hne Hc Hs.
  destruct (Nat.even i) eqn:He.
  - apply Nat.even_spec in He. destruct He as [j ->].
    rewrite double_div2.
    rewrite double_mod2.
    cbn [Z.of_nat Z.eqb]. by apply nextLevel_lookup_pair.
  - assert (Ho : Nat.odd i = true) by (rewrite <- Nat.negb_even, He; reflexivity).
    apply Nat.odd_spec in Ho. destruct Ho as [j ->].
    rewrite double_succ_div2, double_succ_mod2.
    replace (2 * j + 1 - 1)%nat with (2 * j)%nat in Hs by lia.
    cbn [Z.of_nat Pos.of_succ_nat Z.eqb]. by apply nextLevel_lookup_pair.
Qed.

(** The fold of a proof that has an entry for every level below the top
    ends at the single node of the top level. *)
Lemma fold_full_path fuel : forall cur i c,
  Forall (fun s => s <> "") cur ->
  cur !! i = Some c ->
  (length cur <= fuel)%nat ->
  length (proofPath (cur :: upperLevels fuel cur) i).1 = length (upperLevels fuel cur) ->
  last (cur :: upperLevels fuel cur)
  = Some [foldMerklePath c (proofPath (cur :: upperLevels fuel cur) i).1
                           (proofPath (cur :: upperLevels fuel cur) i).2].
Proof.
  induction fuel as [|fuel IH]; intros cur i c Hne Hc Hfuel Hfull.
  - destruct cur; [discriminate | cbn in Hfuel; lia].
  - rewrite upperLevels_unfold in *.
    destruct (Nat.ltb_spec 1 (length cur)) as [Hlen|Hlen].
    + rewrite proofPath_cons2 in *. cbv zeta in *.
      destruct (cur !! (if Nat.even i then (i + 1)%nat else (i - 1)%nat)) as [s|] eqn:Hs.
      * cbn [fst snd length] in *.
        pose proof (fold_step cur i c s Hne Hc Hs) as Hnext.
        cbn [foldMerklePath].
        rewrite last_cons_cons.
        apply IH; [apply nextLevel_nonempty | exact Hnext | | lia].
        rewrite nextLevel_length.
        pose proof (half_up_lt (length cur) Hlen). lia.
      * pose proof (proofPath_length_le (nextLevel cur :: upperLevels fuel (nextLevel cur))
                      (i / 2)%nat) as Hle.
        cbn [length] in *. lia.
    + cbn. destruct cur as [|c0 [|c1 cur]]; [discriminate | | cbn in Hlen; lia].
      destruct i; [|discriminate]. cbn in Hc. by injection Hc as ->.
Qed.

Lemma foldMerklePath_nonempty path_ : forall c indices_,
  c <> "" -> foldMerklePath c path_ indices_ <> "".
Proof.
  induction path_ as [|s path_ IH]; intros c indices_ Hc; [destruct indices_; exact Hc|].
  destruct indices_ as [|ix indices_]; [exact Hc|].
  cbn [foldMerklePath]. apply IH. destruct (ix =? 0); apply hashValues_nonempty.
Qed.

(** The [while] loop ends at a level of one node: the passes allowed are
    enough. *)
Lemma levels_complete fuel : forall cur,
  cur <> [] -> (length cur <= fuel)%nat ->
  exists top, last (cur :: upperLevels fuel cur) = Some [top].
Proof.
  induction fuel as [|fuel IH]; intros cur Hne Hfuel.
  - destruct cur; [contradiction | cbn in Hfuel; lia].
  - rewrite upperLevels_unfold. destruct (Nat.ltb_spec 1 (length cur)) as [Hlen|Hlen].
    + rewrite last_cons_cons. apply IH.
      * destruct cur as [|a [|b l]]; [cbn in Hlen; lia | cbn in Hlen; lia | discriminate].
      * rewrite nextLevel_length. pose proof (half_up_lt (length cur) Hlen). lia.
    + destruct cur as [|c0 [|c1 cur]]; [contradiction | by exists c0 | cbn in Hlen; lia].
Qed.

(** The entries [createFeatureMerkleTree] stores. *)
Lemma in_combine_seq {A} (l : list A) : forall k i a,
  In (i, a) (combine (seq k (length l)) l) -> (k <= i)%nat /\ l !! (i - k)%nat = Some a.
Proof.
  induction l as [|b l IH]; intros k i a Hin; [contradiction|].
  cbn in Hin. destruct Hin as [[= <- <-]|Hin].
  - split; [lia|]. by rewrite Nat.sub_diag.
  - apply IH in Hin. destruct Hin as [Hk Hl]. split; [lia|].
    replace (i - k)%nat with (S (i - S k)) by lia. exact Hl.
Qed.

Lemma combine_seq_snd {A} (l : list A) : forall k, (combine (seq k (length l)) l).*2 = l.
Proof. induction l as [|b l IH]; intros k; [reflexivity|]. cbn. by rewrite IH. Qed.

Lemma fold_insert_lookup (g : nat -> MerkleProof) (l : list (nat * string)) :
  forall (m : gmap string MerkleProof) f mp,
    fold_left (fun proofs entry => <[entry.2 := g entry.1]> proofs) l m !! f = Some mp ->
    (exists i, In (i, f) l /\ mp = g i) \/ m !! f = Some mp.
Proof.
  induction l as [|[i0 f0] l IH]; intros m f mp Hl; [by right|].
  cbn [fold_left fst snd] in Hl. apply IH in Hl. destruct Hl as [(i & Hin & ->)|Hl].
  - left. exists i. split; [by right | reflexivity].
  - destruct (decide (f0 = f)) as [->|Hne].
    + rewrite lookup_insert_eq in Hl. injection Hl as <-.
      left. exists i0. split; [by left | reflexivity].
    + rewrite lookup_insert_ne in Hl by assumption. by right.
Qed.

Lemma fold_insert_is_Some (g : nat -> MerkleProof) (l : list (nat * string)) :
  forall (m : gmap string MerkleProof) f,
    is_Some (fold_left (fun proofs entry => <[entry.2 := g entry.1]> proofs) l m !! f)
    <-> f ∈ l.*2 \/ is_Some (m !! f).
Proof.
  induction l as [|[i0 f0] l IH]; intros m f.
  - cbn. split; [by right | intros [H|H]; [by apply elem_of_nil in H | exact H]].
  - cbn [fold_left fst snd fmap list_fmap]. rewrite IH, elem_of_cons.
    destruct (decide (f0 = f)) as [->|Hne].
    + rewrite lookup_insert_eq. split; [intros _; by left; left | intros _; right; eauto].
    + rewrite lookup_insert_ne by assumption. split; [tauto|].
      intros [[Heq|Hin]|Hm]; [congruence | by left | by right].
Qed.

Lemma stored_proof features f mp :
  (createFeatureMerkleTree features).2 !! f = Some mp ->
  exists i, features !! i = Some f
            /\ mp = merkleProofAt (map hashValue features)
                      (buildLevels (map hashValue features)) i.
Proof.
  unfold createFeatureMerkleTree. cbn [snd]. intros Hl.
  apply (fold_insert_lookup
           (merkleProofAt (map hashValue features) (buildLevels (map hashValue features))))
    in Hl.
  destruct Hl as [(i & Hin & ->)|Hl]; [|by rewrite lookup_empty in Hl].
  apply in_combine_seq in Hin. destruct Hin as [_ Hin]. rewrite Nat.sub_0_r in Hin.
  by exists i.
Qed.

Lemma leaves_nonempty features : Forall (fun s => s <> "") (map hashValue features).
Proof.
  apply Forall_forall. intros s Hs. apply list_elem_of_In, in_map_iff in Hs.
  destruct Hs as (f & <- & _). apply sha256_hex_nonempty.
Qed.

Lemma leaf_lookup features i f :
  features !! i = Some f ->
  map hashValue features !! i = Some (hashValue f)
  /\ nth i (map hashValue features) "" = hashValue f.
Proof.
  revert i. induction features as [|f0 features IH]; intros [|i] Hf; try discriminate.
  - injection Hf as ->. by split.
  - cbn in Hf. apply (IH i Hf).
Qed.

Lemma merkle_proofs_domain_aux features f :
  is_Some ((createFeatureMerkleTree features).2 !! f) <-> f ∈ features.
Proof.
  unfold createFeatureMerkleTree. cbn [snd].
  rewrite fold_insert_is_Some, combine_seq_snd, lookup_empty.
  split; [intros [H|[? H]]; [exact H | discriminate] | by left].
Qed.

(** The proof map has an entry for exactly the features of the list. *)
Theorem merkle_proofs_domain features f :
  is_Some ((createFeatureMerkleTree features).2 !! f) <-> f ∈ features.
Proof. apply merkle_proofs_domain_aux. Qed.

(** The proof stored for a feature starts from the hash of its name, and
    it has as many indices as path entries. *)
Theorem merkle_proof_leaf features f mp :
  (createFeatureMerkleTree features).2 !! f = Some mp ->
  leaf mp = hashValue f /\ length (indices mp) = length (path mp).
Proof.
  intros Hl. apply stored_proof in Hl. destruct Hl as (i & Hf & ->).
  cbn [merkleProofAt leaf path indices]. split.
  - by apply leaf_lookup.
  - apply proofPath_lengths.
Qed.

Lemma merkle_proof_leaf_witness :
  exists mp,
    (createFeatureMerkleTree ["basic-crawling"; "stealth-mode"; "api-access"]).2
      !! "stealth-mode" = Some mp
    /\ length (path mp) = 2%nat
    /\ leaf mp = hashValue "stealth-mode"
    /\ length (indices mp) = length (path mp).
Proof.
  eexists. split; [vm_compute; reflexivity|].
  split; [vm_compute; reflexivity|].
  apply (merkle_proof_leaf ["basic-crawling"; "stealth-mode"; "api-access"] "stealth-mode").
  vm_compute. reflexivity.
Defined.

Lemma merkle_root_top_aux features :
  match features with
  | [] => createFeatureMerkleTree features = (hashValue "empty", ∅)
  | _ => last (buildLevels (map hashValue features))
         = Some [(createFeatureMerkleTree features).1]
  end.
Proof.
  destruct features as [|f features]; [vm_compute; reflexivity|].
  destruct (levels_complete (length (map hashValue (f :: features)))
              (map hashValue (f :: features))) as [top Htop]; [discriminate | lia |].
  unfold createFeatureMerkleTree. cbn [fst]. unfold buildLevels in *.
  rewrite Htop. cbn [mbind option_bind head].
  assert (Hne : top <> "").
  { assert (Hall : Forall (Forall (fun s => s <> ""))
                     (map hashValue (f :: features)
                        :: upperLevels (length (map hashValue (f :: features)))
                             (map hashValue (f :: features)))).
    { constructor; [apply leaves_nonempty|].
      generalize (length (map hashValue (f :: features))) as fuel.
      generalize (map hashValue (f :: features)) as cur.
      intros cur fuel. revert cur. induction fuel as [|fuel IH]; intros cur; [constructor|].
      rewrite upperLevels_unfold. destruct (1 <? length cur)%nat; [|constructor].
      constructor; [apply nextLevel_nonempty | apply IH]. }
    apply last_Some in Htop. destruct Htop as [l' Hl']. rewrite Hl' in Hall.
    apply Forall_app in Hall. destruct Hall as [_ Hall].
    inversion Hall as [|? ? Htop' _]; subst. by inversion Htop'. }
  by rewrite orElse_nonempty.
Qed.

(** The root of a non-empty feature list is the single node the level loop
    ends with; the root of the empty list is the hash of ['empty'], and it
    has no proofs. *)
Theorem merkle_root_top features :
  match features with
  | [] => createFeatureMerkleTree features = (hashValue "empty", ∅)
  | _ => last (buildLevels (map hashValue features))
         = Some [(createFeatureMerkleTree features).1]
  end.
Proof. apply merkle_root_top_aux. Qed.

Lemma merkle_full_path_folds_aux features f mp :
  (createFeatureMerkleTree features).2 !! f = Some mp ->
  S (length (path mp)) = length (buildLevels (map hashValue features)) ->
  foldMerkleProof mp = (createFeatureMerkleTree features).1.
Proof.
  intros Hl Hfull. apply stored_proof in Hl. destruct Hl as (i & Hf & ->).
  destruct (leaf_lookup features i f Hf) as [Hleaf Hnth].
  unfold foldMerkleProof. cbn [merkleProofAt leaf path indices] in *. rewrite Hnth.
  destruct features as [|f0 features]; [rewrite lookup_nil in Hf; discriminate Hf|].
  pose proof (merkle_root_top_aux (f0 :: features)) as Htop. cbv beta iota in Htop.
  unfold buildLevels in Hfull, Htop. cbn [length] in Hfull. injection Hfull as Hfull.
  pose proof (fold_full_path (length (map hashValue (f0 :: features)))
                (map hashValue (f0 :: features)) i (hashValue f)
                (leaves_nonempty _) Hleaf ltac:(lia) Hfull) as Hfold.
  unfold buildLevels. congruence.
Qed.

(** A stored proof with one path entry per level below the root folds to
    the root. *)
Theorem merkle_full_path_folds features f mp :
  (createFeatureMerkleTree features).2 !! f = Some mp ->
  S (length (path mp)) = length (buildLevels (map hashValue features)) ->
  foldMerkleProof mp = (createFeatureMerkleTree features).1.
Proof. apply merkle_full_path_folds_aux. Qed.

Lemma merkle_full_path_folds_witness :
  let features := ["basic-crawling"; "stealth-mode"] in
  let mp := merkleProofAt (map hashValue features) (buildLevels (map hashValue features)) 1 in
  foldMerkleProof mp = (createFeatureMerkleTree features).1.
Proof.
  intros features mp.
  apply (merkle_full_path_folds features "stealth-mode" mp); vm_compute; reflexivity.
Defined.

(** Over a level of [2^k] nodes every leaf finds a sibling at every level:
    there are [k] levels above and every proof has [k] entries. *)
Lemma power_of_two_paths k : forall fuel cur i,
  length cur = (2 ^ k)%nat -> (i < 2 ^ k)%nat -> (2 ^ k <= fuel)%nat ->
  length (upperLevels fuel cur) = k
  /\ length (proofPath (cur :: upperLevels fuel cur) i).1 = k.
Proof.
  induction k as [|k IH]; intros fuel cur i Hlen Hi Hfuel.
  - destruct fuel as [|fuel]; [cbn in Hfuel; lia|].
    rewrite upperLevels_unfold, Hlen. by split.
  - destruct fuel as [|fuel]; [pose proof (Nat.pow_nonzero 2 (S k)); lia|].
    rewrite Nat.pow_succ_r' in *.
    assert (Hpos : (0 < 2 ^ k)%nat) by (pose proof (Nat.pow_nonzero 2 k); lia).
    rewrite upperLevels_unfold.
    destruct (Nat.ltb_spec 1 (length cur)) as [_|?]; [|lia].
    assert (Hnext : length (nextLevel cur) = (2 ^ k)%nat).
    { rewrite nextLevel_length, Hlen. apply double_succ_div2. }
    assert (Hhalf : (i / 2 < 2 ^ k)%nat) by (apply Nat.Div0.div_lt_upper_bound; lia).
    destruct (IH fuel (nextLevel cur) (i / 2)%nat Hnext Hhalf ltac:(lia)) as [Hup Hpath].
    split; [cbn [length]; by rewrite Hup|].
    rewrite proofPath_cons2. cbv zeta.
    assert (Hsib : ((if Nat.even i then i + 1 else i - 1) < length cur)%nat).
    { rewrite Hlen. destruct (Nat.even i) eqn:He; [|lia].
      apply Nat.even_spec in He. destruct He as [j ->]. lia. }
    apply lookup_lt_is_Some in Hsib. destruct Hsib as [s ->].
    cbn [fst length]. by rewrite Hpath.
Qed.

(** Over a feature list whose length is a power of two, every stored proof
    folds to the root. *)
Theorem merkle_power_of_two_folds features k f mp :
  length features = (2 ^ k)%nat ->
  (createFeatureMerkleTree features).2 !! f = Some mp ->
  foldMerkleProof mp = (createFeatureMerkleTree features).1.
Proof.
  intros Hlen Hl. pose proof Hl as Hstored.
  apply stored_proof in Hstored. destruct Hstored as (i & Hf & Hmp).
  apply (merkle_full_path_folds_aux features f mp Hl).
  assert (Hi : (i < 2 ^ k)%nat) by (rewrite <- Hlen; by apply lookup_lt_Some with f).
  destruct (power_of_two_paths k (length (map hashValue features)) (map hashValue features) i)
    as [Hup Hpath]; [by rewrite length_map | exact Hi | rewrite length_map; lia |].
  rewrite Hmp. unfold buildLevels. cbn [merkleProofAt path length]. unfold buildLevels in Hpath.
  by rewrite Hup, Hpath.
Qed.

Lemma merkle_power_of_two_folds_witness :
  let features := ["basic-crawling"; "stealth-mode"] in
  let mp := merkleProofAt (map hashValue features) (buildLevels (map hashValue features)) 0 in
  foldMerkleProof mp = (createFeatureMerkleTree features).1.
Proof.
  intros features mp.
  apply (merkle_power_of_two_folds features 1 "basic-crawling" mp); vm_compute; reflexivity.
Defined.

Ltac run_in H :=
  repeat (first
    [ rewrite run_assoc in H
    | rewrite run_randomScalar in H | rewrite run_hashToScalar in H
    | rewrite run_generateId in H
    | rewrite run_randomBytes in H | rewrite run_gets in H | rewrite run_modify in H
    | rewrite run_ret in H | rewrite run_throw in H ];
    cbv beta in H).

(** ** What [generateProof] returns *)

Lemma pedersenCommit_nonempty value blinding :
  (0 <? String.length (pedersenCommit value blinding))%nat = true.
Proof.
  unfold pedersenCommit.
  pose proof (padStart0_nonempty 64 _ (toString16_nonempty
    (Z.rem (value * x (g1 circuitParams) + blinding * x (h circuitParams))
       (fieldModulus circuitParams)))) as Hne.
  destruct (JS.padStart0 64 _); [contradiction | reflexivity].
Qed.

Lemma BigInt0x_scalarOfHash s :
  JS.BigInt0x (JS.toString16 (scalarOfHash s)) = Some (scalarOfHash s).
Proof. apply BigInt0x_toString16, scalarOfHash_scalar. Qed.

(** Whatever [generateProof] returns carries the request's type and
    challenge and the commitment's id, is not yet marked verified, and, for
    every type but license ownership, passes the verifier of its type
    against that commitment. *)
Lemma generateProof_returned secret cmt request now st p st' :
  generateProof secret cmt request now st = (Returned p, st') ->
  proofType p = request_proofType request
  /\ proof_commitmentId p = commitmentId cmt
  /\ challenge p = request_challenge request
  /\ verified p = false
  /\ Generates (witnessData secret) (request_proofType request) (requirements request)
  /\ totalProofsGenerated st' = totalProofsGenerated st + 1
  /\ (request_proofType request <> license_ownership -> verifyByType p cmt = true).
Proof.
  unfold generateProof. intros Hgen.
  pose proof (checkRateLimit_generated (commitmentId cmt) now st) as Hcount.
  destruct (checkRateLimit (commitmentId cmt) now st) as [[[]|e] st1] eqn:Hlim;
    [|rewrite (bind_thrown _ _ _ _ _ Hlim) in Hgen; discriminate].
  rewrite (bind_returned _ _ _ _ _ Hlim) in Hgen. cbn [snd] in Hcount.
  rewrite run_randomBytes in Hgen. cbv beta zeta in Hgen.
  destruct (request_proofType request) eqn:Hty.
  - (* license ownership *)
    unfold generateOwnershipProof in Hgen. run_in Hgen.
    injection Hgen as <- <-. cbn. rewrite Hcount.
    repeat split; try reflexivity; [constructor | congruence].
  - (* tier membership *)
    unfold generateTierMembershipProof in Hgen. run_in Hgen.
    destruct (minimumTier (requirements request)) as [mt|] eqn:Hmt; [|discriminate].
    run_in Hgen. injection Hgen as <- <-. cbn. rewrite Hcount.
    repeat split; try reflexivity; [by apply generates_tier with mt|].
    intros _. unfold verifyByType, verifyTierMembershipProof. cbn.
    rewrite BigInt0x_scalarOfHash. by apply bool_decide_eq_true.
  - (* feature access *)
    unfold generateFeatureAccessProof in Hgen.
    destruct (requiredFeature (requirements request)) as [f|] eqn:Hf;
      cbn [mbind option_bind] in Hgen; [|discriminate].
    destruct (featureMerkleProofs (witnessData secret) !! f) as [mp|] eqn:Hmp;
      [|discriminate].
    run_in Hgen. injection Hgen as <- <-. cbn. rewrite Hcount.
    repeat split; try reflexivity; [by apply generates_feature with f mp|].
    intros _. unfold verifyByType, verifyFeatureAccessProof. cbn.
    by rewrite bool_decide_eq_true_2.
  - (* usage quota *)
    unfold generateQuotaProof in Hgen.
    destruct (requiredQuota (requirements request)) as [q|] eqn:Hq; [|discriminate].
    destruct (Z.ltb_spec (usageQuota (witnessData secret) - usedQuota (witnessData secret)) q);
      [discriminate|].
    run_in Hgen. injection Hgen as <- <-. cbn. rewrite Hcount.
    repeat split; try reflexivity; [by apply generates_quota with q|].
    intros _. unfold verifyByType, verifyQuotaProof. cbn. apply pedersenCommit_nonempty.
  - (* time validity *)
    unfold generateTimeValidityProof in Hgen.
    destruct (currentTimestamp (requirements request)) as [t|] eqn:Ht; [|discriminate].
    destruct (Z.leb_spec (expirationTimestamp (witnessData secret)) t); [discriminate|].
    run_in Hgen. injection Hgen as <- <-. cbn. rewrite Hcount.
    repeat split; try reflexivity; [by apply generates_time with t|].
    intros _. unfold verifyByType, verifyTimeValidityProof. cbn.
    by apply bool_decide_eq_true.
  - (* worker allocation *)
    unfold generateWorkerAllocationProof in Hgen.
    destruct (requestedWorkers (requirements request)) as [n|] eqn:Hn; [|discriminate].
    destruct (Z.ltb_spec (witness_maxWorkers (witnessData secret)) n); [discriminate|].
    run_in Hgen. injection Hgen as <- <-. cbn. rewrite Hcount.
    repeat split; try reflexivity; [by apply generates_workers with n|].
    intros _. unfold verifyByType, verifyWorkerAllocationProof.
    cbn [proofType proof proof_a proof_c fst snd].
    apply andb_true_iff. split; [apply pedersenCommit_nonempty | by apply bool_decide_eq_true].
Qed.

Lemma generateProof_generates secret cmt request now st st1 :
  checkRateLimit (commitmentId cmt) now st = (Returned tt, st1) ->
  Generates (witnessData secret) (request_proofType request) (requirements request) ->
  exists p st', generateProof secret cmt request now st = (Returned p, st').
Proof.
  intros Hlim Hg. unfold generateProof.
  rewrite (bind_returned _ _ _ _ _ Hlim), run_randomBytes. cbv beta zeta.
  inversion Hg as [rq Ht | rq mt Hmt Ht | rq f mp Hf Hmp Ht | rq q Hq Hle Ht
                  | rq n Hn Hle Ht | rq t Hc Hlt Ht]; subst.
  - unfold generateOwnershipProof. run. eauto.
  - unfold generateTierMembershipProof. run. rewrite Hmt. run. eauto.
  - unfold generateFeatureAccessProof. rewrite Hf. cbn [mbind option_bind]. rewrite Hmp.
    run. eauto.
  - unfold generateQuotaProof. rewrite Hq.
    destruct (Z.ltb_spec (usageQuota (witnessData secret) - usedQuota (witnessData secret)) q);
      [lia|]. run. eauto.
  - unfold generateWorkerAllocationProof. rewrite Hn.
    destruct (Z.ltb_spec (witness_maxWorkers (witnessData secret)) n); [lia|]. run. eauto.
  - unfold generateTimeValidityProof. rewrite Hc.
    destruct (Z.leb_spec (expirationTimestamp (witnessData secret)) t); [lia|]. run. eauto.
Qed.

(** Once the rate limiter has let the call through, [generateProof] returns
    a proof exactly when the requirement its proof type reads is present and
    the witness passes the generator's check: none for license ownership and
    tier membership, a stored Merkle proof for feature access, enough
    remaining quota, workers within the limit, expiration after the current
    time.  The numbers the generator reads are taken to be safe integers
    ([safeNumbers]): the source then compares and subtracts them exactly
    and [BigInt] of the difference does not throw. *)
Theorem generateProof_returns_iff secret cmt request now st st1 :
  checkRateLimit (commitmentId cmt) now st = (Returned tt, st1) ->
  safeNumbers (config st) (witnessData secret) (request_proofType request)
              (requirements request) ->
  (exists p st', generateProof secret cmt request now st = (Returned p, st'))
  <-> Generates (witnessData secret) (request_proofType request) (requirements request).
Proof.
  intros Hlim _. split.
  - intros (p & st' & Hgen). by apply generateProof_returned in Hgen as (_ & _ & _ & _ & Hg & _).
  - by apply generateProof_generates with st1.
Qed.

Lemma generateProof_returns_iff_witness :
  exists p st', generateProof Demo.trialSecret Demo.trialCommitment
                  (Demo.request usage_quota (Demo.needQuota 500)) 4000
                  Demo.issuedTrial.2 = (Returned p, st').
Proof.
  apply (generateProof_returns_iff Demo.trialSecret Demo.trialCommitment
           (Demo.request usage_quota (Demo.needQuota 500)) 4000 Demo.issuedTrial.2
           (checkRateLimit (commitmentId Demo.trialCommitment) 4000 Demo.issuedTrial.2).2).
  - vm_compute. reflexivity.
  - split; vm_compute; reflexivity.
  - apply generates_quota with 500; [reflexivity | vm_compute; discriminate].
Defined.

(** A proof [generateProof] returned for any type but license ownership is
    accepted by a fresh verification in every state in which the commitment
    it was generated for is registered under its id. *)
Theorem generated_proof_accepted secret cmt request now st p st' now' st'' :
  request_proofType request <> license_ownership ->
  generateProof secret cmt request now st = (Returned p, st') ->
  commitments st'' !! commitmentId cmt = Some cmt ->
  cacheLookup st'' (proofId p) now' = None ->
  valid (verifyProof p now' st'').1.1 = true.
Proof.
  intros Hty Hgen Hreg Hcache.
  apply generateProof_returned in Hgen as (_ & Hcid & _ & _ & _ & _ & Hok).
  rewrite (verifyProof_fresh p now' st'' cmt); [by apply Hok | exact Hcache | by rewrite Hcid].
Qed.

Lemma generated_proof_accepted_witness :
  valid (verifyProof Demo.quotaProof 5000 Demo.quotaRun.2).1.1 = true.
Proof.
  apply (generated_proof_accepted
           (Demo.returnedValue Demo.quotaRun.1).1.1.2
           (Demo.returnedValue Demo.quotaRun.1).1.1.1
           (Demo.returnedValue Demo.quotaRun.1).1.2
           4000
           (createProofRequest usage_quota (Demo.needQuota 500) 3000
              (createLicense enterprise Demo.expirationDate 2000 Demo.engine).2).2
           Demo.quotaProof Demo.quotaRun.2 5000 Demo.quotaRun.2).
  - discriminate.
  - vm_compute. reflexivity.
  - vm_compute. reflexivity.
  - vm_compute. reflexivity.
Defined.

(** A proof filled in from the public commitment alone, with no secret and
    no request, is accepted by a fresh verification for every type but
    license ownership. *)
Theorem public_data_proof_accepted pt cmt proofId_ now st :
  pt <> license_ownership ->
  commitments st !! commitmentId cmt = Some cmt ->
  cacheLookup st proofId_ now = None ->
  valid (verifyProof (publicDataProof pt cmt proofId_) now st).1.1 = true.
Proof.
  intros Hpt Hreg Hcache.
  rewrite (verifyProof_fresh _ now st cmt) by assumption.
  destruct pt; try congruence; unfold verifyByType; cbn [publicDataProof proofType].
  - unfold verifyTierMembershipProof. cbn. by apply bool_decide_eq_true.
  - unfold verifyFeatureAccessProof. cbn [publicDataProof proof proof_c fst].
    by rewrite bool_decide_eq_true_2.
  - reflexivity.
  - unfold verifyTimeValidityProof. by apply bool_decide_eq_true.
  - unfold verifyWorkerAllocationProof. cbn. by apply bool_decide_eq_true.
Qed.

Lemma public_data_proof_accepted_witness :
  valid (verifyProof (publicDataProof tier_membership Demo.trialCommitment "proof_0")
           5000 Demo.issuedTrial.2).1.1 = true.
Proof.
  apply (public_data_proof_accepted tier_membership Demo.trialCommitment "proof_0" 5000
           Demo.issuedTrial.2).
  - discriminate.
  - vm_compute. reflexivity.
  - vm_compute. reflexivity.
Defined.

(** ** The verifier's ledger *)

Lemma ledger_ret {A} (a : A) : keepsLedger (ret a).
Proof. by intros st. Qed.

Lemma ledger_throw {A} e : keepsLedger (@throw A e).
Proof. by intros st. Qed.

Lemma ledger_gets {A} (f : State -> A) : keepsLedger (gets f).
Proof. by intros st. Qed.

Lemma ledger_bind {A B} (m : M A) (k : A -> M B) :
  keepsLedger m -> (forall a, keepsLedger (k a)) -> keepsLedger (bind m k).
Proof.
  intros Hm Hk st. unfold bind. specialize (Hm st).
  destruct (m st) as [[a|e] st1]; cbn [snd] in *; [|exact Hm].
  by rewrite (Hk a st1).
Qed.

Lemma ledger_randomBytes n : keepsLedger (randomBytes n).
Proof. by intros st. Qed.

Lemma ledger_randomScalar : keepsLedger randomScalar.
Proof. intros st. by rewrite randomScalar_returns. Qed.

Lemma ledger_hashToScalar value : keepsLedger (hashToScalar value).
Proof. intros st. by rewrite hashToScalar_returns. Qed.

Lemma ledger_generateId prefix : keepsLedger (generateId prefix).
Proof. by intros st. Qed.

Lemma ledger_count_generated : keepsLedger (modify count_generated).
Proof. by intros st. Qed.

Lemma ledger_checkRateLimit cid now : keepsLedger (checkRateLimit cid now).
Proof.
  intros st. destruct (Z.le_gt_cases (now - proofCountReset st) 3600000) as [Hw|Hw].
  - rewrite checkRateLimit_in_window by assumption.
    by destruct (maxProofsPerHour (config st) <=? countOf st cid).
  - rewrite checkRateLimit_after_window by lia. cbv zeta.
    by destruct (maxProofsPerHour (config st) <=? 0).
Qed.

Ltac ledger :=
  repeat first
    [ apply ledger_ret | apply ledger_gets | apply ledger_randomBytes
    | apply ledger_randomScalar | apply ledger_hashToScalar | apply ledger_generateId
    | apply ledger_count_generated | apply ledger_checkRateLimit | apply ledger_throw
    | apply ledger_bind; [|intros ?]
    | match goal with
      | |- keepsLedger (match ?x with _ => _ end) => destruct x
      end ].

Lemma ledger_generateProof secret cmt request now :
  keepsLedger (generateProof secret cmt request now).
Proof.
  unfold generateProof.
  apply ledger_bind; [apply ledger_checkRateLimit | intros _].
  apply ledger_bind; [apply ledger_randomBytes | intros nonceBytes].
  apply ledger_bind; [|intros generated; ledger].
  destruct (request_proofType request);
    [ unfold generateOwnershipProof | unfold generateTierMembershipProof
    | unfold generateFeatureAccessProof | unfold generateQuotaProof
    | unfold generateTimeValidityProof | unfold generateWorkerAllocationProof ]; ledger.
Qed.

Lemma ledger_createProofRequest pt rq now : keepsLedger (createProofRequest pt rq now).
Proof. unfold createProofRequest. ledger. Qed.

Lemma keeps_createProofRequest pt rq now : keepsLimiter (createProofRequest pt rq now).
Proof. unfold createProofRequest. keeps. Qed.

Lemma ledgerView_eq st st' :
  ledgerView st' = ledgerView st ->
  commitments st' = commitments st /\ proofCache st' = proofCache st
  /\ totalProofsVerified st' = totalProofsVerified st
  /\ totalValidProofs st' = totalValidProofs st
  /\ totalInvalidProofs st' = totalInvalidProofs st.
Proof. unfold ledgerView. intros [= -> -> -> -> ->]. auto. Qed.

(** The limiter's part of a [generateProof] call. *)
Lemma generateProof_limiterView secret cmt request now st :
  limiterView (generateProof secret cmt request now st).2
  = limiterView (checkRateLimit (commitmentId cmt) now st).2.
Proof.
  destruct (generateProof_limiter_first secret cmt request now) as (rest & Hrest & ->).
  unfold bind. destruct (checkRateLimit (commitmentId cmt) now st) as [[[]|e] st1]; [|reflexivity].
  apply Hrest.
Qed.

Lemma checkRateLimit_counts cid now st cfg :
  config st = cfg ->
  (forall c n, proofCounts st !! c = Some n -> 1 <= n <= maxProofsPerHour cfg) ->
  config (checkRateLimit cid now st).2 = cfg
  /\ forall c n, proofCounts (checkRateLimit cid now st).2 !! c = Some n ->
                 1 <= n <= maxProofsPerHour cfg.
Proof.
  intros Hcfg Hinv.
  destruct (Z.le_gt_cases (now - proofCountReset st) 3600000) as [Hw|Hw].
  - rewrite checkRateLimit_in_window by assumption. rewrite Hcfg.
    destruct (Z.leb_spec (maxProofsPerHour cfg) (countOf st cid)) as [Hge|Hlt];
      cbn [snd]; [by split|].
    split; [exact Hcfg|]. intros c n. cbn [set_proofCounts proofCounts].
    destruct (decide (cid = c)) as [->|Hne].
    + rewrite lookup_insert_eq. intros [= <-]. unfold countOf in *.
      destruct (proofCounts st !! c) as [m|] eqn:Hm; simpl in Hlt |- *; [|lia].
      specialize (Hinv c m Hm). lia.
    + rewrite lookup_insert_ne by assumption. apply Hinv.
  - rewrite checkRateLimit_after_window by lia. cbv zeta. rewrite Hcfg.
    destruct (Z.leb_spec (maxProofsPerHour cfg) 0) as [Hge|Hlt]; cbn [snd].
    + split; [exact Hcfg|]. intros c n.
      cbn [set_proofCountReset set_proofCounts proofCounts]. by rewrite lookup_empty.
    + split; [exact Hcfg|]. intros c n.
      cbn [set_proofCountReset set_proofCounts proofCounts].
      destruct (decide (cid = c)) as [->|Hne].
      * rewrite lookup_insert_eq. intros [= <-]. lia.
      * rewrite lookup_insert_ne by assumption. by rewrite lookup_empty.
Qed.

Lemma verifyProof_state p now st :
  (verifyProof p now st).2 = st
  \/ exists cmt, commitments st !! proof_commitmentId p = Some cmt
       /\ (verifyProof p now st).2
          = set_proofCache
              (insert (proofId p)
                 {| result :=
                      {| valid := verifyByType p cmt;
                         result_proofId := proofId p;
                         result_verifiedAt := now;
                         provenClaims := extractProvenClaims p (verifyByType p cmt);
                         verificationTime := 0 |};
                    cache_expiresAt := now + verificationCacheMs (config st) |})
              (count_verified (verifyByType p cmt) st).
Proof.
  unfold verifyProof. destruct (cacheLookup st (proofId p) now); [by left|].
  destruct (commitments st !! proof_commitmentId p) as [cmt|]; [|by left].
  right. by exists cmt.
Qed.

Lemma construct_invariant cfg now source : Invariant cfg (construct cfg now source).
Proof. split; try reflexivity; intros ? ?; cbn; by rewrite lookup_empty. Qed.

Lemma step_invariant cfg st st' : Invariant cfg st -> Step st st' -> Invariant cfg st'.
Proof.
  intros [Hcfg Hmet Hreg Hcache Hcounts] Hstep.
  destruct Hstep as [t e now | pt rq now | secret cmt request now | p now].
  - destruct e as [ms|]; [|rewrite createLicense_invalid; by split].
    destruct (createLicense_returns t ms now st)
      as (cmt & secret & st1 & -> & _ & _ & _ & _ & _ & _ & Hc & Hl & Hp & _ & Hv & Hva & Hi).
    cbn [snd]. apply limiterView_eq in Hl as (Hl1 & Hl2 & Hl3).
    split; [congruence | rewrite Hv, Hva, Hi; exact Hmet | | rewrite Hp; exact Hcache
           | rewrite Hl2; exact Hcounts].
    intros id c. rewrite Hc. destruct (decide (commitmentId cmt = id)) as [<-|Hne].
    + rewrite lookup_insert_eq. by intros [= <-].
    + rewrite lookup_insert_ne by assumption. apply Hreg.
  - pose proof (ledger_createProofRequest pt rq now st) as Hled.
    destruct (keeps_createProofRequest pt rq now st) as [Hlim _].
    apply ledgerView_eq in Hled as (H1 & H2 & H3 & H4 & H5).
    apply limiterView_eq in Hlim as (H6 & H7 & H8).
    split; [congruence | rewrite H3, H4, H5; exact Hmet | rewrite H1; exact Hreg
           | rewrite H2; exact Hcache | rewrite H7; exact Hcounts].
  - pose proof (ledger_generateProof secret cmt request now st) as Hled.
    pose proof (generateProof_limiterView secret cmt request now st) as Hlim.
    apply ledgerView_eq in Hled as (H1 & H2 & H3 & H4 & H5).
    apply limiterView_eq in Hlim as (H6 & H7 & H8).
    destruct (checkRateLimit_counts (commitmentId cmt) now st cfg Hcfg Hcounts) as [Hc' Hn'].
    split; [congruence | rewrite H3, H4, H5; exact Hmet | rewrite H1; exact Hreg
           | rewrite H2; exact Hcache | rewrite H7; exact Hn'].
  - destruct (verifyProof_state p now st) as [->|(cmt & Hm & ->)]; [by split|].
    split; cbn [set_proofCache count_verified config totalProofsVerified totalValidProofs
                totalInvalidProofs commitments proofCache proofCounts];
      [exact Hcfg | destruct (verifyByType p cmt); lia | exact Hreg | | exact Hcounts].
    intros id e0. destruct (decide (proofId p = id)) as [<-|Hne].
    + rewrite lookup_insert_eq. by intros [= <-].
    + rewrite lookup_insert_ne by assumption. apply Hcache.
Qed.

Lemma reachable_invariant cfg st : Reachable cfg st -> Invariant cfg st.
Proof.
  intros (now & source & Hrtc).
  revert st Hrtc. apply rtc_ind_r; [apply construct_invariant|].
  intros y z _ Hstep Hy. by apply step_invariant with y.
Qed.

(** ** Invariants of the reachable states *)

(** In every state the engine can reach, a commitment is registered under
    its own id: [getCommitment(id)] never returns a commitment with another
    [commitmentId]. *)
Theorem registry_keyed_by_id cfg st id cmt :
  Reachable cfg st -> getCommitment id st = Some cmt -> commitmentId cmt = id.
Proof. intros Hr. apply (inv_registry cfg st (reachable_invariant cfg st Hr)). Qed.

Lemma registry_keyed_by_id_witness :
  commitmentId Demo.trialCommitment = "cmt_cbf0153a5f84a9cef3183d6287acd1f6".
Proof.
  apply (registry_keyed_by_id DEFAULT_CONFIG
           (createLicense trial Demo.expirationDate 2000 Demo.engine).2).
  - exists 1000, Demo.source. apply rtc_once. constructor.
  - vm_compute. reflexivity.
Defined.

(** In every reachable state the verification counters add up, and each
    cached result is filed under the proof id it reports. *)
Theorem verification_ledger_consistent cfg st :
  Reachable cfg st ->
  totalProofsVerified st = totalValidProofs st + totalInvalidProofs st
  /\ forall id e, proofCache st !! id = Some e -> result_proofId (result e) = id.
Proof.
  intros Hr. pose proof (reachable_invariant cfg st Hr) as [_ Hm _ Hc _]. by split.
Qed.

Lemma verification_ledger_consistent_witness :
  let st := (verifyProof Demo.quotaProof 5000 Demo.quotaRun.2).2 in
  totalProofsVerified st = 1
  /\ totalProofsVerified st = totalValidProofs st + totalInvalidProofs st
  /\ (result_proofId ∘ result) <$> proofCache st !! proofId Demo.quotaProof
     = Some (proofId Demo.quotaProof).
Proof.
  intros st.
  destruct (verification_ledger_consistent DEFAULT_CONFIG st) as [Hsum Hcache].
  - exists 1000, Demo.source.
    eapply rtc_l; [apply (step_createLicense _ enterprise Demo.expirationDate 2000)|].
    eapply rtc_l; [apply (step_createProofRequest _ usage_quota (Demo.needQuota 500) 3000)|].
    eapply rtc_l;
      [apply (step_generateProof _
                (Demo.returnedValue Demo.quotaRun.1).1.1.2
                (Demo.returnedValue Demo.quotaRun.1).1.1.1
                (Demo.returnedValue Demo.quotaRun.1).1.2 4000)|].
    eapply rtc_l; [apply (step_verifyProof _ Demo.quotaProof 5000)|].
    match goal with |- rtc Step ?a ?b => replace a with b by (vm_compute; reflexivity) end.
    apply rtc_refl.
  - split; [vm_compute; reflexivity|]. split; [exact Hsum|].
    destruct (proofCache st !! proofId Demo.quotaProof) as [e|] eqn:He.
    + cbn. f_equal. by apply Hcache.
    + vm_compute in He. discriminate He.
Defined.

(** In every reachable state the configuration is the one the engine was
    built with, and a stored proof count lies between 1 and the configured
    ceiling. *)
Theorem proof_counts_within_ceiling cfg st cid n :
  Reachable cfg st ->
  proofCounts st !! cid = Some n ->
  config st = cfg /\ 1 <= n <= maxProofsPerHour cfg.
Proof.
  intros Hr Hn. pose proof (reachable_invariant cfg st Hr) as [Hc _ _ _ Hcount].
  split; [exact Hc | by apply Hcount with cid].
Qed.

Lemma proof_counts_within_ceiling_witness :
  config Demo.quotaRun.2 = DEFAULT_CONFIG /\ 1 <= 1 <= maxProofsPerHour DEFAULT_CONFIG.
Proof.
  apply (proof_counts_within_ceiling DEFAULT_CONFIG Demo.quotaRun.2
           "cmt_cbf0153a5f84a9cef3183d6287acd1f6" 1).
  - exists 1000, Demo.source.
    eapply rtc_l; [apply (step_createLicense _ enterprise Demo.expirationDate 2000)|].
    eapply rtc_l; [apply (step_createProofRequest _ usage_quota (Demo.needQuota 500) 3000)|].
    eapply rtc_l;
      [apply (step_generateProof _
                (Demo.returnedValue Demo.quotaRun.1).1.1.2
                (Demo.returnedValue Demo.quotaRun.1).1.1.1
                (Demo.returnedValue Demo.quotaRun.1).1.2 4000)|].
    match goal with |- rtc Step ?a ?b => replace a with b by (vm_compute; reflexivity) end.
    apply rtc_refl.
  - vm_compute. reflexivity.
Defined.

(** ** The result cache and the registry lookup *)

(** After a fresh verification, any proof object carrying the same
    [proofId], whatever else it holds, is answered with the cached result
    until the entry expires; the call changes neither the engine nor the
    object. *)
Theorem cached_verdict_served p q now1 now2 st cmt :
  cacheLookup st (proofId p) now1 = None ->
  commitments st !! proof_commitmentId p = Some cmt ->
  proofId q = proofId p ->
  now2 < now1 + verificationCacheMs (config st) ->
  verifyProof q now2 (verifyProof p now1 st).2
  = ((verifyProof p now1 st).1.1, q, (verifyProof p now1 st).2).
Proof.
  intros Hcache Hreg Hid Hnow.
  unfold verifyProof at 2 3 4. rewrite Hcache, Hreg. cbn [fst snd].
  unfold verifyProof, cacheLookup. rewrite Hid.
  cbn [set_proofCache proofCache]. rewrite lookup_insert_eq. cbn [cache_expiresAt result].
  destruct (Z.ltb_spec now2 (now1 + verificationCacheMs (config st))); [reflexivity | lia].
Qed.

Lemma cached_verdict_served_witness :
  verifyProof (Demo.withPublicInputs [] Demo.quotaProof) 6000
    (verifyProof Demo.quotaProof 5000 Demo.quotaRun.2).2
  = ((verifyProof Demo.quotaProof 5000 Demo.quotaRun.2).1.1,
     Demo.withPublicInputs [] Demo.quotaProof,
     (verifyProof Demo.quotaProof 5000 Demo.quotaRun.2).2).
Proof.
  apply (cached_verdict_served Demo.quotaProof (Demo.withPublicInputs [] Demo.quotaProof)
           5000 6000 Demo.quotaRun.2 (Demo.returnedValue Demo.quotaRun.1).1.1.1).
  - vm_compute. reflexivity.
  - vm_compute. reflexivity.
  - reflexivity.
  - vm_compute. reflexivity.
Defined.

(** A proof for a commitment id the registry does not hold, with no live
    cache entry, is answered [valid = false] with no claim reported; the
    failure is neither cached nor counted, and the proof object is left
    unmarked. *)
Theorem unknown_commitment_rejected p now st :
  cacheLookup st (proofId p) now = None ->
  getCommitment (proof_commitmentId p) st = None ->
  verifyProof p now st = (createInvalidResult (proofId p) "Commitment not found" now, p, st)
  /\ valid (verifyProof p now st).1.1 = false
  /\ hasValidLicense (provenClaims (verifyProof p now st).1.1) = false.
Proof.
  unfold getCommitment. intros Hcache Hreg. unfold verifyProof. by rewrite Hcache, Hreg.
Qed.

Lemma unknown_commitment_rejected_witness :
  valid (verifyProof Demo.quotaProof 5000 Demo.engine).1.1 = false.
Proof.
  apply (unknown_commitment_rejected Demo.quotaProof 5000 Demo.engine); reflexivity.
Defined.

(** A fresh verification reports at most the claim of the proof's declared
    type: a claim is reported true only if the verdict is [valid] and the
    proof is of the claim's type. *)
Theorem proven_claims_of_declared_type p now st :
  cacheLookup st (proofId p) now = None ->
  let r := (verifyProof p now st).1.1 in
  (hasValidLicense (provenClaims r) = true ->
     valid r = true /\ proofType p = license_ownership)
  /\ (meetsTierRequirement (provenClaims r) = Some true ->
        valid r = true /\ proofType p = tier_membership)
  /\ (hasFeatureAccess (provenClaims r) = Some true ->
        valid r = true /\ proofType p = feature_access)
  /\ (hasQuota (provenClaims r) = Some true ->
        valid r = true /\ proofType p = usage_quota)
  /\ (hasWorkerCapacity (provenClaims r) = Some true ->
        valid r = true /\ proofType p = worker_allocation)
  /\ (isNotExpired (provenClaims r) = Some true ->
        valid r = true /\ proofType p = time_validity).
Proof.
  intros Hcache. unfold verifyProof. rewrite Hcache.
  destruct (commitments st !! proof_commitmentId p) as [cmt|];
    cbn; [|repeat split; discriminate].
  repeat match goal with |- _ /\ _ => split end;
    intros H; try injection H as H; apply andb_true_iff in H as [-> H];
    by apply bool_decide_eq_true in H.
Qed.

Lemma proven_claims_of_declared_type_witness :
  valid (verifyProof Demo.quotaProof 5000 Demo.quotaRun.2).1.1 = true
  /\ proofType Demo.quotaProof = usage_quota.
Proof.
  apply (proven_claims_of_declared_type Demo.quotaProof 5000 Demo.quotaRun.2);
    vm_compute; reflexivity.
Defined.

(** ** Rate limiting beyond the ceiling *)

(** A call refused for its witness still uses up one unit of the hourly
    budget: the limiter counts the call before the witness is looked at.
    For a quota request the remaining quota is taken to be a safe integer,
    as the source compares the rounded difference. *)
Theorem rejected_call_is_counted c st cid e :
  inWindow st cid c ->
  countOf st cid < maxProofsPerHour (config st) ->
  WitnessViolation (witnessData (call_secret c)) (request_proofType (call_request c))
                   (requirements (call_request c)) e ->
  (request_proofType (call_request c) = usage_quota ->
     exactRemaining (witnessData (call_secret c))) ->
  (generateProofCall c st).1 = Thrown e
  /\ countOf (generateProofCall c st).2 cid = countOf st cid + 1.
Proof.
  intros [Hcid Hw] Hlt Hv _. unfold generateProofCall.
  assert (Hlim : checkRateLimit (commitmentId (call_commitment c)) (call_time c) st
                 = (Returned tt, set_proofCounts (insert cid (countOf st cid + 1)) st)).
  { rewrite checkRateLimit_in_window by assumption. rewrite Hcid.
    destruct (Z.leb_spec (maxProofsPerHour (config st)) (countOf st cid)); [lia | reflexivity]. }
  rewrite (generateProof_witness_violation _ _ _ _ _ _ _ Hv Hlim).
  split; [reflexivity|]. cbn [snd]. unfold countOf.
  cbn [advance_cursor set_proofCounts proofCounts]. by rewrite lookup_insert_eq.
Qed.

Lemma rejected_call_is_counted_witness :
  let call :=
    {| call_secret := Demo.trialSecret; call_commitment := Demo.trialCommitment;
       call_request := Demo.request usage_quota (Demo.needQuota 1001);
       call_time := 4000 |} in
  (generateProofCall call Demo.issuedTrial.2).1 = Thrown InsufficientQuota
  /\ countOf (generateProofCall call Demo.issuedTrial.2).2
             (commitmentId Demo.trialCommitment)
     = countOf Demo.issuedTrial.2 (commitmentId Demo.trialCommitment) + 1.
Proof.
  intros call.
  apply (rejected_call_is_counted call Demo.issuedTrial.2
           (commitmentId Demo.trialCommitment) InsufficientQuota).
  - split; [reflexivity | vm_compute; discriminate].
  - vm_compute. reflexivity.
  - apply quota_short with 1001; [reflexivity | vm_compute; reflexivity].
  - intros _. vm_compute. reflexivity.
Defined.



(** ** Requests and licenses *)

Lemma createProofRequest_aux pt rq now st :
  exists request st',
    createProofRequest pt rq now st = (Returned request, st')
    /\ request_proofType request = pt
    /\ requirements request = rq
    /\ expiresAt request = now + proofExpirationMs (config st)
    /\ String.length (request_challenge request) = 64%nat
    /\ ledgerView st' = ledgerView st
    /\ limiterView st' = limiterView st
    /\ totalProofsGenerated st' = totalProofsGenerated st.
Proof.
  unfold createProofRequest. run. do 2 eexists. split; [reflexivity|].
  cbn [request_proofType requirements expiresAt request_challenge].
  repeat split.
Qed.


(** [createLicense] returns exactly when the expiration date is a valid
    one.  With the Invalid Date it throws the [RangeError] of [BigInt(NaN)]:
    the key and the blinding factors have been drawn by then (448 random
    bytes), nothing is registered.  With a valid date the commitment is
    registered under its id and every other id keeps what it had; the three
    commitments open to the secret's license key, tier rank and expiration
    (in seconds, rounded down) under the hashed blinding factors; the
    witness starts with no quota used. *)
Theorem createLicense_registers t expirationDate now st :
  match getTime expirationDate with
  | None =>
      createLicense t expirationDate now st
      = (Thrown RangeErrorNaN, advance_cursor 448 st)
  | Some ms =>
      exists cmt secret st1,
        createLicense t expirationDate now st = (Returned (cmt, secret), st1)
        /\ getCommitment (commitmentId cmt) st1 = Some cmt
        /\ (forall id, id <> commitmentId cmt -> getCommitment id st1 = getCommitment id st)
        /\ commitment cmt
           = pedersenCommit (scalarOfHash (licenseKey secret))
                            (scalarOfHash (blinding_license (blindingFactors secret)))
        /\ tierCommitment cmt
           = pedersenCommit (tierHierarchy (config st) t)
                            (scalarOfHash (blinding_tier (blindingFactors secret)))
        /\ expirationCommitment cmt
           = pedersenCommit (ms / 1000)
                            (scalarOfHash (blinding_expiration (blindingFactors secret)))
        /\ tier (witnessData secret) = t
        /\ expirationTimestamp (witnessData secret) = ms / 1000
        /\ usedQuota (witnessData secret) = 0
        /\ usageQuota (witnessData secret) = monthlyQuota (tierLimits (config st) t)
  end.
Proof.
  destruct expirationDate as [ms|]; cbn [getTime]; [|apply createLicense_invalid].
  destruct (createLicense_returns t ms now st)
    as (cmt & secret & st1 & Heq & Hw & Hc & Ht & He & _ & _ & Hreg & _).
  exists cmt, secret, st1. unfold getCommitment. rewrite Hreg.
  rewrite Hw in Ht, He. cbn [tierValue expirationTimestamp] in Ht, He.
  split; [exact Heq|]. split; [apply lookup_insert_eq|].
  split; [intros id Hne; by apply lookup_insert_ne|].
  rewrite Hw. by repeat split.
Qed.

(** A license issued by [createLicense] can prove access to a feature
    exactly when the feature is on its tier's list: once the rate limiter
    has let the call through, a feature-access request returns a proof for
    a listed feature and throws [FeatureNotLicensed] for any other. *)
Theorem feature_access_follows_tier t expirationDate now0 st0 cmt secret st1
    request f now st st2 :
  createLicense t expirationDate now0 st0 = (Returned (cmt, secret), st1) ->
  request_proofType request = feature_access ->
  requiredFeature (requirements request) = Some f ->
  checkRateLimit (commitmentId cmt) now st = (Returned tt, st2) ->
  (f ∈ features (tierLimits (config st0) t) ->
     exists p st', generateProof secret cmt request now st = (Returned p, st'))
  /\ (f ∉ features (tierLimits (config st0) t) ->
        generateProof secret cmt request now st
        = (Thrown (FeatureNotLicensed f), advance_cursor 16 st2)).
Proof.
  intros Hcreate Hty Hf Hlim.
  destruct expirationDate as [ms|];
    [|rewrite createLicense_invalid in Hcreate; discriminate].
  destruct (createLicense_returns t ms now0 st0)
    as (cmt0 & secret0 & st1' & Heq & Hw & _).
  rewrite Hcreate in Heq. injection Heq as <- <- <-.
  pose proof (merkle_proofs_domain_aux (features (tierLimits (config st0) t)) f) as Hdom.
  split; intros Hin.
  - apply Hdom in Hin as [mp Hmp].
    apply generateProof_generates with st2; [exact Hlim|].
    rewrite Hty. apply generates_feature with f mp; [exact Hf|]. by rewrite Hw.
  - apply generateProof_witness_violation; [|exact Hlim].
    rewrite Hty. apply feature_absent; [exact Hf|]. rewrite Hw. cbn [featureMerkleProofs].
    destruct (_ !! f) eqn:Hl; [|reflexivity]. exfalso. apply Hin, Hdom. eauto.
Qed.

Lemma feature_access_follows_tier_witness :
  generateProof Demo.trialSecret Demo.trialCommitment
    (Demo.request feature_access (Demo.needFeature "stealth-mode")) 4000 Demo.issuedTrial.2
  = (Thrown (FeatureNotLicensed "stealth-mode"),
     advance_cursor 16
       (checkRateLimit (commitmentId Demo.trialCommitment) 4000 Demo.issuedTrial.2).2).
Proof.
  apply (feature_access_follows_tier trial Demo.expirationDate 2000 Demo.engine
           Demo.trialCommitment Demo.trialSecret Demo.issuedTrial.2
           (Demo.request feature_access (Demo.needFeature "stealth-mode"))
           "stealth-mode" 4000 Demo.issuedTrial.2).
  - vm_compute. reflexivity.
  - reflexivity.
  - reflexivity.
  - vm_compute. reflexivity.
  - cbn. intros Hin. apply list_elem_of_In in Hin. destruct Hin as [[=]|[]].
Defined.

(** ** The demonstration run *)

(** The run of [test_zk.ts] ends with [result.valid = true], whatever the
    random bytes and the instants of the calls. *)
Theorem test_zk_run_valid source t0 t1 t2 t3 t4 :
  test_zk_run source t0 t1 t2 t3 t4 = Returned true.
Proof.
  unfold test_zk_run.
  destruct (createLicense_returns enterprise (t1 + 3600000) t1
              (construct DEFAULT_CONFIG t0 source))
    as (cmt & secret & st1 & Hlic & Hw & _ & _ & _ & _ & _ & Hreg & Hlim1 & Hcache1 & _).
  rewrite (bind_returned _ _ _ _ _ Hlic). cbn [fst snd].
  destruct (createProofRequest_aux feature_access
              {| minimumTier := None; requiredFeature := Some "stealth-mode";
                 requiredQuota := None; requestedWorkers := None;
                 currentTimestamp := None |} t2 st1)
    as (req & st2 & Hreq & Hty & Hrq & _ & _ & Hled2 & Hlim2 & _).
  rewrite (bind_returned _ _ _ _ _ Hreq).
  apply ledgerView_eq in Hled2 as (Hc2 & Hp2 & _).
  apply limiterView_eq in Hlim1 as (Hcfg1 & Hcnt1 & Hrst1).
  apply limiterView_eq in Hlim2 as (Hcfg2 & Hcnt2 & Hrst2).
  assert (Hadmit : exists st3, checkRateLimit (commitmentId cmt) t3 st2 = (Returned tt, st3)).
  { destruct (Z.le_gt_cases (t3 - proofCountReset st2) 3600000) as [Hwin|Hwin].
    - rewrite checkRateLimit_in_window by assumption. unfold countOf.
      rewrite Hcfg2, Hcfg1, Hcnt2, Hcnt1. cbn. rewrite lookup_empty. cbn. eauto.
    - rewrite checkRateLimit_after_window by lia. cbv zeta. rewrite Hcfg2, Hcfg1. cbn. eauto. }
  destruct Hadmit as [st3 Hadmit].
  destruct (generateProof_generates secret cmt req t3 st2 st3 Hadmit) as (p & st4 & Hgen).
  { rewrite Hty.
    destruct (proj2 (merkle_proofs_domain_aux
                       (features (tierLimits DEFAULT_CONFIG enterprise)) "stealth-mode"))
      as [mp Hmp]; [apply list_elem_of_In; right; left; reflexivity|].
    apply generates_feature with "stealth-mode" mp; [by rewrite Hrq|].
    by rewrite Hw. }
  rewrite (bind_returned _ _ _ _ _ Hgen). cbn [fst]. f_equal.
  pose proof (ledger_generateProof secret cmt req t3 st2) as Hled4.
  rewrite Hgen in Hled4. cbn [snd] in Hled4.
  apply ledgerView_eq in Hled4 as (Hc4 & Hp4 & _).
  pose proof Hgen as Hfacts.
  apply generateProof_returned in Hfacts as (_ & Hcid & _ & _ & _ & _ & Hok).
  rewrite (verifyProof_fresh p t4 st4 cmt).
  - apply Hok. rewrite Hty. discriminate.
  - unfold cacheLookup. rewrite Hp4, Hp2, Hcache1. cbn. by rewrite lookup_empty.
  - rewrite Hcid, Hc4, Hc2, Hreg. apply lookup_insert_eq.
Qed.

(** ** Hashes and scalars *)

(** [hashToScalar] never throws and touches nothing: it returns the SHA-256
    digest of its argument, read as a number, reduced below the group
    order. *)
Theorem hashToScalar_total value st :
  exists n, hashToScalar value st = (Returned n, st)
            /\ isScalar n
            /\ n = digestValue value mod groupOrder circuitParams.
Proof.
  exists (scalarOfHash value). split; [apply hashToScalar_returns|].
  split; [apply scalarOfHash_scalar|]. unfold scalarOfHash.
  apply Z.rem_mod_nonneg; [apply digestValue_nonneg | apply groupOrder_pos].
Qed.

(** [randomScalar] never throws: it uses up exactly 32 random bytes and
    returns a scalar below the group order. *)
Theorem randomScalar_total st :
  exists n, randomScalar st = (Returned n, advance_cursor 32 st) /\ isScalar n.
Proof.
  exists (drawnScalar st). split; [apply randomScalar_returns | apply drawnScalar_scalar].
Qed.

(** [hashValue] and [hashValues] return 64 characters that read back as a
    number below [2^256]: never the empty string that the tree builder's
    [|| left] would take for a missing node. *)
Theorem hashValue_is_64_hex value :
  String.length (hashValue value) = 64%nat
  /\ exists n, JS.BigInt0x (hashValue value) = Some n /\ 0 <= n < 2 ^ 256.
Proof.
  split; [apply sha256_hex_length|].
  exists (digestValue value). split; [apply BigInt0x_sha256|].
  split; [apply digestValue_nonneg|].
  unfold digestValue. pose proof (digest_length (JS.bytesOfString value)) as Hl.
  pose proof (digest_bytes (JS.bytesOfString value)) as Hb.
  revert Hl Hb. generalize (SHA256.digest (JS.bytesOfString value)). intros bs Hl Hb.
  assert (Hbound : forall bs acc, Forall isByte bs -> 0 <= acc ->
            bytesValue acc bs < (acc + 1) * 256 ^ Z.of_nat (length bs)).
  { clear. induction bs as [|b bs IH]; intros acc Hbs Hacc; [cbn; lia|].
    inversion Hbs as [|? ? Hb Hrest]; subst. unfold isByte in Hb.
    cbn [bytesValue fold_left length]. fold (bytesValue (acc * 256 + b) bs).
    specialize (IH (acc * 256 + b) Hrest ltac:(lia)).
    rewrite Nat2Z.inj_succ, Z.pow_succ_r by lia.
    eapply Z.lt_le_trans; [exact IH|].
    assert (0 < 256 ^ Z.of_nat (length bs)) by (apply Z.pow_pos_nonneg; lia). nia. }
  specialize (Hbound bs 0 Hb ltac:(lia)). rewrite Hl in Hbound.
  change (2 ^ 256) with ((0 + 1) * 256 ^ Z.of_nat 32). exact Hbound.
Qed.

(** ** License keys *)

(** [generateLicenseKey] uses up 32 random bytes and returns 74 characters:
    ["QP-"] followed by eight groups of eight characters separated by
    dashes. *)
Theorem generateLicenseKey_format st :
  exists key,
    generateLicenseKey st = (Returned key, advance_cursor 32 st)
    /\ String.length key = 74%nat
    /\ substring 0 3 key = "QP-"
    /\ map (fun i => String.get i key) [11; 20; 29; 38; 47; 56; 65]%nat
       = repeat (Some "-"%char) 7.
Proof.
  unfold generateLicenseKey. run. eexists. split; [reflexivity|].
  unfold drawnBytes. cbn [seq map]. 
  split; [reflexivity|]. split; reflexivity.
Qed.

(** ** The browser build's modular power and commitment *)

Lemma modPowLoop_spec m fuel : forall res base exp,
  1 < m -> 0 <= res < m -> 0 <= base < m -> 0 <= exp < 2 ^ Z.of_nat fuel ->
  Real.modPowLoop fuel res base exp m = (res * base ^ exp) mod m.
Proof.
  induction fuel as [|fuel IH]; intros res base exp Hm Hres Hbase Hexp.
  - cbn in Hexp. replace exp with 0 by lia. cbn [Real.modPowLoop].
    rewrite Z.pow_0_r, Z.mul_1_r, Z.mod_small; lia.
  - cbn [Real.modPowLoop]. destruct (Z.ltb_spec 0 exp) as [Hpos|Hzero].
    + rewrite Nat2Z.inj_succ, Z.pow_succ_r in Hexp by lia.
      rewrite !Z.rem_mod_nonneg by nia.
      rewrite Z.quot_div_nonneg by lia.
      pose proof (Z.div_mod exp 2 ltac:(lia)) as Hdm.
      pose proof (Z.mod_pos_bound exp 2 ltac:(lia)) as Hb.
      assert (Hq : 0 <= exp / 2 < 2 ^ Z.of_nat fuel)
        by (split; [apply Z.div_pos; lia | apply Z.div_lt_upper_bound; lia]).
      assert (Hsq : 0 <= (base * base) mod m < m) by (apply Z.mod_pos_bound; lia).
      rewrite IH; try assumption;
        [|destruct (exp mod 2 =? 1); [apply Z.mod_pos_bound; lia | assumption]].
      rewrite <- Z.pow_2_r.
      rewrite Z.mul_mod, Z.mod_pow_l, <- Z.mul_mod by lia.
      rewrite <- Z.pow_mul_r by lia.
      rewrite Hdm at 3.
      destruct (Z.eqb_spec (exp mod 2) 1) as [Hone|Hnone].
      * rewrite Hone, Z.pow_add_r, Z.pow_1_r by lia.
        rewrite Z.mul_mod, Z.mod_mod, <- Z.mul_mod by lia. f_equal. ring.
      * replace (exp mod 2) with 0 by lia. by rewrite Z.add_0_r.
    + replace exp with 0 by lia. rewrite Z.pow_0_r, Z.mul_1_r, Z.mod_small; lia.
Qed.

(** [modPow] computes the modular power for a non-negative base and
    exponent and a modulus above 1. *)
Theorem modPow_correct base exp m :
  0 <= base -> 0 <= exp -> 1 < m ->
  Real.modPow base exp m = Some (base ^ exp mod m).
Proof.
  intros Hbase Hexp Hm. unfold Real.modPow.
  destruct (Z.eqb_spec m 0); [lia|]. f_equal.
  rewrite Z.rem_mod_nonneg by lia.
  rewrite modPowLoop_spec; try lia.
  - rewrite Z.mul_1_l. apply Z.mod_pow_l.
  - apply Z.mod_pos_bound. lia.
  - split; [assumption | by apply digitFuel_enough].
Qed.

Lemma modPow_correct_witness : Real.modPow 5 3 7 = Some (5 ^ 3 mod 7).
Proof. apply (modPow_correct 5 3 7); lia. Defined.

(** With no pass of the loop, that is for an exponent of 0 or below,
    [modPow] returns 1 whatever the base and the non-zero modulus: also for
    modulus 1, where every residue is 0, and for a negative exponent. *)
Theorem modPow_exponent_not_positive base exp m :
  exp <= 0 -> m <> 0 -> Real.modPow base exp m = Some 1.
Proof.
  intros Hexp Hm. unfold Real.modPow. destruct (Z.eqb_spec m 0); [contradiction|].
  f_equal. unfold JS.digitFuel. cbn [Real.modPowLoop].
  destruct (Z.ltb_spec 0 exp); [lia | reflexivity].
Qed.

Lemma modPow_exponent_not_positive_witness : Real.modPow 5 0 1 = Some 1.
Proof. apply (modPow_exponent_not_positive 5 0 1); lia. Defined.

Lemma modPowLoop_one m fuel : forall exp,
  1 < m -> Real.modPowLoop fuel 1 1 exp m = 1.
Proof.
  induction fuel as [|fuel IH]; intros exp Hm; [reflexivity|].
  cbn [Real.modPowLoop]. destruct (0 <? exp); [|reflexivity].
  rewrite Z.mul_1_l, (Z.rem_small 1 m) by lia.
  destruct (Z.rem exp 2 =? 1); by apply IH.
Qed.

Lemma modPow_generator_one value :
  Real.modPow (x (g1 circuitParams)) value (fieldModulus circuitParams) = Some 1.
Proof.
  unfold Real.modPow. pose proof fieldModulus_pos as Hp.
  destruct (Z.eqb_spec (fieldModulus circuitParams) 0) as [Hz|_]; [lia|].
  f_equal. replace (Z.rem (x (g1 circuitParams)) (fieldModulus circuitParams)) with 1
    by reflexivity.
  apply modPowLoop_one. reflexivity.
Qed.

(** The browser build's commitment does not depend on the committed value:
    its first generator is 1, so [g^value] is 1 for every value and the
    commitment is [5^blinding] reduced modulo the field modulus. *)
Theorem real_commitment_ignores_value value value' blinding :
  Real.pedersenCommit value blinding = Real.pedersenCommit value' blinding.
Proof. unfold Real.pedersenCommit. by rewrite !modPow_generator_one. Qed.
